(** * dlab.pointproc: multitaper spectral estimation for point processes

    A shallow embedding of [src/dlab/pointproc.py] and the properties its
    specification states about it.

    Numeric model.  The program computes with IEEE binary64 numbers and
    pairs of them (numpy's float and complex dtypes).  Here a float is a
    real number of [R] and a complex number a pair of reals, so that every
    arithmetic operation is the exact one; rounding is outside the model.
    Operations for which numpy yields nan or inf (division by zero, the
    mean of an empty axis) have no real counterpart: the functions below
    are total on them by the conventions of [Rdiv], and a theorem that
    gives such an operation a value carries the hypothesis that excludes
    the case.  Exceptions are modelled: a computation is a [result]. *)

From Stdlib Require Import Reals Lra Lia ZArith String.
From stdpp Require Import base list.

Open Scope R_scope.

(** ** Comparisons on floats are decidable *)

#[global] Instance Rle_decision (x y : R) : Decision (x <= y) := Rle_dec x y.
#[global] Instance Rlt_decision (x y : R) : Decision (x < y) := Rlt_dec x y.
#[global] Instance Req_decision : EqDecision R := Req_dec_T.

(** ** Complex numbers (numpy dtype 'D') *)

Module Cplx.

Definition C : Type := R * R.

Definition C0 : C := (0, 0).
Definition RtoC (x : R) : C := (x, 0).
Definition Cre (z : C) : R := z.1.
Definition Cim (z : C) : R := z.2.
Definition Cadd (a b : C) : C := (a.1 + b.1, a.2 + b.2).
Definition Csub (a b : C) : C := (a.1 - b.1, a.2 - b.2).
Definition Cmul (a b : C) : C := (a.1 * b.1 - a.2 * b.2, a.1 * b.2 + a.2 * b.1).
Definition Cconj (z : C) : C := (z.1, - z.2).
Definition Cscale (z : C) (x : R) : C := (z.1 * x, z.2 * x).
Definition Cnorm2 (z : C) : R := z.1 * z.1 + z.2 * z.2.

(** [numpy.absolute] on a complex number. *)
Definition Cmod (z : C) : R := sqrt (Cnorm2 z).

(** [numpy.exp] on a complex number. *)
Definition Cexp (z : C) : C := (exp z.1 * cos z.2, exp z.1 * sin z.2).

Definition Cdiv (a b : C) : C :=
  ((a.1 * b.1 + a.2 * b.2) / Cnorm2 b, (a.2 * b.1 - a.1 * b.2) / Cnorm2 b).

(** [numpy.sqrt] on a complex number: the principal square root. *)
Definition Csqrt (z : C) : C :=
  (sqrt ((Cmod z + z.1) / 2),
   (if decide (z.2 < 0) then -1 else 1) * sqrt ((Cmod z - z.1) / 2)).

(** [numpy.arctan2]. *)
Definition atan2 (y x : R) : R :=
  if decide (0 < x) then atan (y / x)
  else if decide (x < 0) then
         if decide (y < 0) then atan (y / x) - PI else atan (y / x) + PI
  else if decide (0 < y) then PI / 2
  else if decide (y < 0) then - (PI / 2)
  else 0.

(** [numpy.angle]. *)
Definition Cangle (z : C) : R := atan2 z.2 z.1.

Definition csum (l : list C) : C := foldr Cadd C0 l.

(** [numpy.mean] of complex numbers: the sum divided by the count. *)
Definition cmean (l : list C) : C :=
  let s := csum l in (s.1 / INR (length l), s.2 / INR (length l)).

End Cplx.
Import Cplx.

Definition rsum (l : list R) : R := foldr Rplus 0 l.

(** [numpy.mean] of floats. *)
Definition rmean (l : list R) : R := rsum l / INR (length l).

(** ** Exceptions and results *)

Inductive exn : Type :=
| AssertionError (msg : string)
| ValueError (msg : string)
| ZeroDivisionError
| IndexError
| AxisError.

Inductive result (A : Type) : Type :=
| Ok (a : A)
| Err (e : exn).
Arguments Ok {A} a.
Arguments Err {A} e.

#[global] Instance result_ret : MRet result := fun A a => Ok a.
#[global] Instance result_bind : MBind result :=
  fun A B k m => match m with Ok a => k a | Err e => Err e end.

Definition is_ok {A} (r : result A) : Prop := ∃ a, r = Ok a.

(** Run [k] on every element, left to right, stopping at the first error. *)
Fixpoint traverse {A B} (k : A → result B) (l : list A) : result (list B) :=
  match l with
  | [] => Ok []
  | x :: l' => y ← k x; ys ← traverse k l'; Ok (y :: ys)
  end.

(** A [for] loop over [l] threading the state [s]. *)
Fixpoint for_each {S A} (body : S → A → result S) (s : S) (l : list A) : result S :=
  match l with
  | [] => Ok s
  | x :: l' => s' ← body s x; for_each body s' l'
  end.

Definition msg_freq : string := "Frequency information inconsistent sizes".
Definition msg_trial : string := "Trial dimensions of data do not match".
Definition msg_empty_reduction : string :=
  "zero-size array to reduction operation which has no identity".
Definition msg_interp_len : string :=
  "x and y arrays must be equal in length along interpolation axis".
Definition msg_interp_range : string :=
  "A value in x_new is outside the interpolation range".
Definition msg_fft_len : string := "Invalid number of FFT data points".

(** ** Arrays *)

(** A real 2-D array with its shape, rows first. *)
Record array2 : Type := Array2 {
  shape2 : nat * nat;
  data2 : list (list R)
}.

(** Entry [A[i, j]]. *)
Definition at2 (A : array2) (i j : nat) : R :=
  default 0 (data2 A !! i ≫= (.!! j)).

Definition column (A : array2) (j : nat) : list R :=
  (λ i, at2 A i j) <$> seq 0 (shape2 A).1.

(** [A.T] as the list of its rows. *)
Definition transpose (A : array2) : list (list R) :=
  column A <$> seq 0 (shape2 A).2.

(** A complex 3-D array [J[f, k, c]] as nested lists, first axis outermost. *)
Abbreviation array3 := (list (list (list C))).

Definition at3 (J : array3) (f k c : nat) : option C :=
  Jf ← J !! f; Jfk ← Jf !! k; Jfk !! c.

Definition zeros {A} (z : A) (n : nat) : list A := replicate n z.
Definition zeros3 (n0 n1 n2 : nat) : array3 :=
  replicate n0 (replicate n1 (replicate n2 C0)).

(** The array whose entry [(f, k, c)] is [g f k c]. *)
Definition tabulate3 (n0 n1 n2 : nat) (g : nat → nat → nat → C) : array3 :=
  (λ f, (λ k, (λ c, g f k c) <$> seq 0 n2) <$> seq 0 n1) <$> seq 0 n0.

(** The entry [M[f, k]] of a matrix held as a list of rows. *)
Definition cat2 (M : list (list C)) (f k : nat) : C :=
  default C0 (M !! f ≫= (.!! k)).

(** [J[:, :, chan] = M]. *)
Definition set_chan (J : array3) (chan : nat) (M : list (list C)) : array3 :=
  imap (λ f (Jf : list (list C)),
          imap (λ k (Jfk : list C), <[chan := cat2 M f k]> Jfk) Jf) J.

(** [J[:, :, chan] = 0]. *)
Definition clear_chan (J : array3) (chan : nat) : array3 :=
  (λ Jf : list (list C), (λ Jfk : list C, <[chan := C0]> Jfk) <$> Jf) <$> J.

(** ** numpy and scipy primitives, as documented *)

(** [t.min()] and [t.max()]: an empty array has no minimum. *)
Definition amin (t : list R) : result R :=
  match t with
  | [] => Err (ValueError msg_empty_reduction)
  | x :: t' => Ok (foldr Rmin x t')
  end.

Definition amax (t : list R) : result R :=
  match t with
  | [] => Err (ValueError msg_empty_reduction)
  | x :: t' => Ok (foldr Rmax x t')
  end.

(** [t[0]]. *)
Definition first (t : list R) : result R :=
  match t with
  | [] => Err IndexError
  | x :: _ => Ok x
  end.

(** The ceiling of a real number. *)
Definition Rceil (x : R) : Z := (1 - up (- x))%Z.

(** [numpy.arange(start, stop, step)] for a nonzero step:
    [ceil((stop - start) / step)] values [start + i * step], none when that
    number is not positive. *)
Definition arange (start stop step : R) : list R :=
  (λ i, start + INR i * step) <$> seq 0 (Z.to_nat (Rceil ((stop - start) / step))).

(** [x] truncated or zero-padded to [n] entries. *)
Definition resize (n : nat) (x : list R) : list R :=
  take n x ++ replicate (n - length x) 0.

(** Coefficient [m] of the [n]-point discrete Fourier transform of [x]:
    the sum over [j] of [x[j] * exp(-2 pi i j m / n)]. *)
Definition dft_coeff (n : nat) (x : list R) (m : nat) : C :=
  csum (imap (λ j xj, Cscale (Cexp (0, - (2 * PI * INR j * INR m / INR n))) xj)
             (resize n x)).

(** [scipy.fftpack.fft(A, nfft, axis=0)]: every column transformed,
    [nfft] rows. *)
Definition fft_axis0 (A : array2) (nfft : nat) : result (list (list C)) :=
  if decide (nfft = 0)%nat then Err (ValueError msg_fft_len)
  else Ok ((λ m, (λ k, dft_coeff nfft (column A k) m) <$> seq 0 (shape2 A).2)
             <$> seq 0 nfft).

(** [H[findx, :]]. *)
Definition take_rows {A} (H : list A) (findx : list nat) : result (list A) :=
  traverse (λ i, match H !! i with Some r => Ok r | None => Err IndexError end) findx.

(** Piecewise-linear interpolation of the samples [(xs[i], ys[i])] at [x],
    as scipy computes it on an ascending grid: the segment used is the
    first one whose right end is not below [x], or the last segment. *)
Fixpoint lerp (xs ys : list R) (x : R) : R :=
  match xs, ys with
  | x0 :: ((x1 :: xs2) as xs'), y0 :: ((y1 :: _) as ys') =>
      if decide (x <= x1 ∨ xs2 = []) then y0 + (y1 - y0) / (x1 - x0) * (x - x0)
      else lerp xs' ys' x
  | _, y0 :: _ => y0
  | _, [] => 0
  end.

(** [scipy.interpolate.interp1d(x, y)] with its defaults (linear, last axis,
    [bounds_error] set): the object holds the grid and the rows of [y]. *)
Record interp1d_obj : Type := Interp1d {
  ix : list R;
  iy : list (list R)
}.

Definition interp1d (x : list R) (y_shape : nat * nat) (y : list (list R)) :
  result interp1d_obj :=
  if decide (length x = y_shape.2) then Ok (Interp1d x y)
  else Err (ValueError msg_interp_len).

Definition in_bounds (x : list R) (e : R) : Prop :=
  match head x, last x with
  | Some x0, Some xn => x0 <= e ∧ e <= xn
  | _, _ => False
  end.

#[global] Instance in_bounds_dec x e : Decision (in_bounds x e).
Proof. unfold in_bounds. destruct (head x), (last x); apply _. Defined.

(** Calling the interpolator on the vector [ev]: one row per row of [y]. *)
Definition interp1d_call (I : interp1d_obj) (ev : list R) : result (list (list R)) :=
  if decide (Forall (in_bounds (ix I)) ev)
  then Ok ((λ yk, lerp (ix I) yk <$> ev) <$> iy I)
  else Err (ValueError msg_interp_range).

#[global] Instance R_inhabited : Inhabited R := populate 0.

(** ** The [linalg] helpers *)

(** Modelled from the spec: [linalg.outer] is not among the sources; the
    spec names it the outer product, [outer(u, v)[i, j] = u[i] * v[j]]. *)
Definition outer (u : list C) (v : list R) : list (list C) :=
  (λ ui, (λ vj, Cscale ui vj) <$> v) <$> u.

(** Modelled from the spec: [linalg.gemm] is not among the sources; the spec
    names it the complex matrix multiply with optional transpose.  With
    [trans_b] set it is [A · B^T]: entry [(i, j)] is the sum over [l] of
    [A[i, l] * B[j, l]]. *)
Definition gemm_trans_b (A : list (list C)) (B : list (list R)) : list (list C) :=
  (λ Ai, (λ Bj, csum (zip_with Cscale Ai Bj)) <$> B) <$> A.

(** Elementwise [A - B] and [H * x] on complex matrices. *)
Definition msub (A B : list (list C)) : list (list C) :=
  zip_with (zip_with Csub) A B.
Definition mscale (H : list (list C)) (x : R) : list (list C) :=
  (λ Hf : list C, (λ z, Cscale z x) <$> Hf) <$> H.

(** ** Event-time collections *)

(** Modelled from the spec: the [toelis] class is not among the sources.
    The collection is an indexable, sized collection of event-time
    sequences, one per trial; iterating it yields them; it exposes their
    count ([len(tl)], [tl.nrepeats]) and a global time [range], a pair. *)
Record toelis : Type := Toelis {
  events : list (list R);
  range : R * R
}.

Definition nrepeats (tl : toelis) : nat := length (events tl).

(** Modelled from the spec: the class behind [tl.range] is not among the
    sources; the spec gives the range as the minimum and the maximum over
    all sequences of the collection. *)
Definition range_spans (tl : toelis) : Prop :=
  amin (mjoin (events tl)) = Ok (range tl).1 ∧
  amax (mjoin (events tl)) = Ok (range tl).2.

(** ** The point-process Fourier transformer, [_mtfftpt] *)

(** The variables the loop of [_mtfftpt] assigns.  [Nsp] has dtype ['i'];
    the counts stored in it are numbers of events of one trial, taken to
    fit the dtype, and are modelled as natural numbers. *)
Record loop_state : Type := LoopState {
  chan : nat;
  Nsp : list nat;
  Msp : list R;
  J : array3
}.

(** [ev = events[(events >= t.min()) & (events <= t.max())]]. *)
Definition in_range (tmin tmax : R) (evs : list R) : list R :=
  filter (λ e, tmin <= e ∧ e <= tmax) evs.

(** [Y = nx.exp(outer(-1j*w, ev - t[0]))]. *)
Definition phase_matrix (w ev : list R) (t0 : R) : list (list C) :=
  (λ row : list C, Cexp <$> row)
    <$> outer ((λ wf, Cscale (0, -1) wf) <$> w) ((λ e, e - t0) <$> ev).

(** One iteration of [for events in tl]. *)
Definition trial_body (H : list (list C)) (w : list R) (interpolator : interp1d_obj)
    (t : list R) (st : loop_state) (evs : list R) : result loop_state :=
  tmin ← amin t;
  tmax ← amax t;
  let ev := in_range tmin tmax evs in
  let Nsp' := <[chan st := length ev]> (Nsp st) in
  let Msp' := <[chan st := 1 * INR (length ev) / INR (length t)]> (Msp st) in
  J' ← (if decide (0 < length ev)%nat then
          data_proj ← interp1d_call interpolator ev;
          t0 ← first t;
          let Y := phase_matrix w ev t0 in
          Ok (set_chan (J st) (chan st)
                (msub (gemm_trans_b Y data_proj) (mscale H (Msp' !!! chan st))))
        else Ok (clear_chan (J st) (chan st)));
  Ok (LoopState (chan st + 1) Nsp' Msp' J').

Definition _mtfftpt (tl : toelis) (tapers : array2) (nfft : nat) (t f : list R)
    (findx : list nat) : result (array3 * list R * list nat) :=
  let ntrials := length (events tl) in
  let '(N, K) := shape2 tapers in
  let nfreq := length f in
  if decide (nfreq = length findx) then
    H ← fft_axis0 tapers nfft;
    H ← take_rows H findx;
    let w := (λ x, 2 * x * PI) <$> f in
    let init := {| Nsp := zeros 0%nat ntrials;
                   Msp := zeros 0 ntrials;
                   J := zeros3 nfreq K ntrials;
                   chan := 0 |} in
    interpolator ← interp1d t (K, N) (transpose tapers);
    st ← for_each (trial_body H w interpolator t) init (events tl);
    Ok (J st, Msp st, Nsp st)
  else Err (AssertionError msg_freq).

(** ** Keyword arguments *)

Inductive tapers_arg : Type :=
| Precalc (tp : array2)
| NTapers (n : nat).

Record kwargs : Type := Kwargs {
  kw_tapers : option tapers_arg;
  kw_mtm_p : option R;
  kw_pad : option Z;
  kw_Fs : option R;
  kw_fpass : option (R * R);
  kw_trialave : option bool;
  kw_tgrid : option (list R)
}.

Definition set_tapers (kw : kwargs) (tp : array2) : kwargs :=
  Kwargs (Some (Precalc tp)) (kw_mtm_p kw) (kw_pad kw) (kw_Fs kw) (kw_fpass kw)
         (kw_trialave kw) (kw_tgrid kw).

(** Python's [x / y] on floats. *)
Definition fdiv (x y : R) : result R :=
  if decide (y = 0) then Err ZeroDivisionError else Ok (x / y).

(** [nx.arange(mintime - dt, maxtime + 2*dt, dt)] with [dt = 1./Fs]. *)
Definition bounds_grid (mintime maxtime Fs : R) : result (list R) :=
  dt ← fdiv 1 Fs;
  Ok (arange (mintime - dt) (maxtime + 2 * dt) dt).

(** Results of [mtspectrumpt]: with [trialave] the spectrum has one entry
    per frequency and the rate is a number; without, both keep the trial
    axis. *)
Inductive spectrum : Type :=
| SpecTrials (S : list (list R))
| SpecAverage (S : list R).

Inductive rate : Type :=
| RateTrials (rates : list R)
| RateAverage (rate : R).

(** An array of rank 0, 1 or 2, as [nx.squeeze] may leave it. *)
Inductive ndarray (A : Type) : Type :=
| Nd0 (x : A)
| Nd1 (v : list A)
| Nd2 (m : list (list A)).
Arguments Nd0 {A} x.
Arguments Nd1 {A} v.
Arguments Nd2 {A} m.

(** [nx.squeeze] of an array of shape [(n0, n1)]. *)
Definition squeeze (n0 n1 : nat) (m : list (list C)) : ndarray C :=
  if decide (n0 = 1)%nat then
    if decide (n1 = 1)%nat then Nd0 (cat2 m 0 0) else Nd1 (default [] (m !! 0%nat))
  else if decide (n1 = 1)%nat then Nd1 ((λ i, cat2 m i 0) <$> seq 0 n0)
  else Nd2 m.

(** [a.mean(1)]. *)
Definition nd_mean1 (a : ndarray C) : result (ndarray C) :=
  match a with
  | Nd2 m => Ok (Nd1 (cmean <$> m))
  | _ => Err AxisError
  end.

Definition nd_map {A B} (g : A → B) (a : ndarray A) : ndarray B :=
  match a with
  | Nd0 x => Nd0 (g x)
  | Nd1 v => Nd1 (g <$> v)
  | Nd2 m => Nd2 ((λ row : list A, g <$> row) <$> m)
  end.

(** An elementwise binary operation, with numpy's broadcasting of the
    lower rank. *)
Definition nd_map2 {A} (g : A → A → A) (a b : ndarray A) : ndarray A :=
  match a, b with
  | Nd0 x, _ => nd_map (g x) b
  | _, Nd0 y => nd_map (λ x, g x y) a
  | Nd1 u, Nd1 v => Nd1 (zip_with g u v)
  | Nd1 u, Nd2 m => Nd2 ((λ row, zip_with g u row) <$> m)
  | Nd2 m, Nd1 v => Nd2 ((λ row, zip_with g row v) <$> m)
  | Nd2 m, Nd2 m' => Nd2 (zip_with (zip_with g) m m')
  end.

(** [A.conj() * B] on arrays of one shape. *)
Definition conj_mul3 (A B : array3) : array3 :=
  zip_with (zip_with (zip_with (λ a b, Cmul (Cconj a) b))) A B.

(** [nx.mean(A, 1)] of a complex array of shape [(nfreq, K, ntrials)]. *)
Definition cmean_axis1 (ntrials : nat) (A : array3) : list (list C) :=
  (λ Af : list (list C),
     (λ c, cmean ((λ Afk : list C, default C0 (Afk !! c)) <$> Af)) <$> seq 0 ntrials)
    <$> A.

(** [nx.mean(nx.real(A), 1)] of a complex array of shape
    [(nfreq, K, ntrials)]. *)
Definition rmean_axis1 (ntrials : nat) (A : array3) : list (list R) :=
  (λ Af : list (list C),
     (λ c, rmean ((λ Afk : list C, Cre (default C0 (Afk !! c))) <$> Af)) <$> seq 0 ntrials)
    <$> A.

(** The continuous signal: a 1-D or a 2-D array. *)
Inductive signal : Type :=
| Sig1 (v : list R)
| Sig2 (A : array2).

(** [if S.ndim==1: S.shape = (S.size,1)]. *)
Definition as_2d (S : signal) : array2 :=
  match S with
  | Sig1 v => Array2 (length v, 1%nat) ((λ x, [x]) <$> v)
  | Sig2 A => A
  end.

(** [nx.tile(S, (1, n))]. *)
Definition tile_cols (S : array2) (n : nat) : array2 :=
  Array2 ((shape2 S).1, ((shape2 S).2 * n)%nat)
         ((λ row : list R, mjoin (replicate n row)) <$> data2 S).

(** The check of the trial dimension at the head of [coherencycpt]. *)
Definition match_trials (S : array2) (tl : toelis) : result array2 :=
  let '(N, nchan) := shape2 S in
  if decide (nchan ≠ nrepeats tl) then
    if decide (nchan = 1)%nat then Ok (tile_cols S (nrepeats tl))
    else Err (ValueError msg_trial)
  else Ok S.

(** The reduction at the end of [coherencycpt], from [J1] and [J2] of shape
    [(nfreq, K, ntrials)]; the results are [C], [phi], [S12], [S1], [S2]. *)
Definition coherency_reduce (nfreq ntrials : nat) (J1 J2 : array3) (trialave : bool) :
    result (ndarray R * ndarray R * ndarray C * ndarray C * ndarray C) :=
  let S12 := squeeze nfreq ntrials (cmean_axis1 ntrials (conj_mul3 J1 J2)) in
  let S1 := squeeze nfreq ntrials (cmean_axis1 ntrials (conj_mul3 J1 J1)) in
  let S2 := squeeze nfreq ntrials (cmean_axis1 ntrials (conj_mul3 J2 J2)) in
  '(S12, S1, S2) ← (if trialave then
                      S12 ← nd_mean1 S12;
                      S1 ← nd_mean1 S1;
                      S2 ← nd_mean1 S2;
                      Ok (S12, S1, S2)
                    else Ok (S12, S1, S2));
  let C12 := nd_map2 Cdiv S12 (nd_map Csqrt (nd_map2 Cmul S1 S2)) in
  Ok (nd_map Cmod C12, nd_map Cangle C12, S12, S1, S2).

Section Estimators.

(** The helpers of [signalproc] and [datautils] are not among the
    sources; the estimators are stated for any of them. *)
Variable getfgrid : R → nat → R * R → result (list R * list nat).
Variable dpsschk : nat → kwargs → result array2.
Variable mtfft : array2 → kwargs → result array3.
Variable nextpow2 : nat → Z.

(** [max(2**(nextpow2(N)+pad), N)].  For a negative exponent Python's
    power is a fraction below one and [N] is the maximum as soon as
    [N >= 1]; [Z.pow] gives 0 there. *)
Definition nfft_of (N : nat) (pad : Z) : nat :=
  Z.to_nat (Z.max (2 ^ (nextpow2 N + pad)) (Z.of_nat N)).

(** The time grid of [mtfftpt]: [tgrid], or the collection's range, and
    a pair is taken as the two end points. *)
Definition mtfftpt_grid (tl : toelis) (kw : kwargs) : result (list R) :=
  let Fs := default 1 (kw_Fs kw) in
  let t := default [(range tl).1; (range tl).2] (kw_tgrid kw) in
  match t with
  | [mintime; maxtime] => bounds_grid mintime maxtime Fs
  | _ => Ok t
  end.

Definition mtfftpt (tl : toelis) (kw : kwargs) :
    result (array3 * list R * list nat * list R) :=
  let Fs := default 1 (kw_Fs kw) in
  let fpass := default (0, Fs / 2) (kw_fpass kw) in
  let pad := default 0%Z (kw_pad kw) in
  t ← mtfftpt_grid tl kw;
  let N := length t in
  let nfft := nfft_of N pad in
  '(f, findx) ← getfgrid Fs nfft fpass;
  tapers ← dpsschk N kw;
  '(J, Msp, Nsp) ← _mtfftpt tl tapers nfft t f findx;
  Ok (J, Msp, Nsp, f).

Definition mtspectrumpt (tl : toelis) (kw : kwargs) :
    result (spectrum * list R * rate) :=
  let Fs := default 1 (kw_Fs kw) in
  '(J, Msp, Nsp, f) ← mtfftpt tl kw;
  let S := rmean_axis1 (length Msp) (conj_mul3 J J) in
  if default false (kw_trialave kw)
  then Ok (SpecAverage (rmean <$> S), f, RateAverage (rmean Msp * Fs))
  else Ok (SpecTrials S, f, RateTrials ((λ m, m * Fs) <$> Msp)).

(** [coherencycpt] once the trial dimension of the signal is settled: [N]
    is the number of samples and [S] has one column per trial. *)
Definition coherencycpt_matched (N : nat) (S : array2) (tl : toelis) (kw : kwargs) :
    result (ndarray R * ndarray R * ndarray C * ndarray C * ndarray C * list R) :=
  let Fs := default 1 (kw_Fs kw) in
  let fpass := default (0, Fs / 2) (kw_fpass kw) in
  let pad := default 0%Z (kw_pad kw) in
  t ← match kw_tgrid kw with
      | Some t => Ok t
      | None => dt ← fdiv 1 Fs; Ok (arange 0 (INR N * dt) dt)
      end;
  let nfft := nfft_of N pad in
  '(f, findx) ← getfgrid Fs nfft fpass;
  tapers ← dpsschk N kw;
  let kw := set_tapers kw tapers in
  J1 ← mtfft S kw;
  '(J2, Nsp, Msp) ← _mtfftpt tl tapers nfft t f findx;
  '(C12abs, phi, S12, S1, S2) ←
    coherency_reduce (length f) (nrepeats tl) J1 J2 (default false (kw_trialave kw));
  Ok (C12abs, phi, S12, S1, S2, f).

Definition coherencycpt (S : signal) (tl : toelis) (kw : kwargs) :
    result (ndarray R * ndarray R * ndarray C * ndarray C * ndarray C * list R) :=
  let S := as_2d S in
  let N := (shape2 S).1 in
  S ← match_trials S tl;
  coherencycpt_matched N S tl kw.

End Estimators.

(** ** The helpers of [signalproc] and [datautils], from their contracts *)

Module Datautils.

(** Modelled from the spec: [datautils.nextpow2] is not among the sources.
    The transform length is [max(2^ceil(log2(N)) * 2^pad, N)]: [nextpow2]
    is the exponent of the next power of two. *)
Definition nextpow2 (N : nat) : Z := Z.of_nat (Nat.log2_up N).

End Datautils.

Module Signalproc.

(** Modelled from the spec: [signalproc.getfgrid] is not among the sources.
    The grid builder computes the [nfft/2+1] non-negative frequency bins at
    spacing [Fs/nfft], restricts them to those with
    [fpass[0] <= f <= fpass[1]], and returns the kept values together with
    their indices into the full bin array. *)
Definition getfgrid (Fs : R) (nfft : nat) (fpass : R * R) : result (list R * list nat) :=
  let bins := (λ i, (i, INR i * Fs / INR nfft)) <$> seq 0 (nfft / 2 + 1) in
  let kept := filter (λ p : nat * R, fpass.1 <= p.2 ∧ p.2 <= fpass.2) bins in
  Ok (snd <$> kept, fst <$> kept).

(** Modelled from the spec: [signalproc.dpsschk] is not among the sources.
    The taper bank passes precomputed tapers through unchanged and
    otherwise computes [K] tapers of length [N] for the time-bandwidth
    product (defaults 5 and 3); the computation itself, [dpss], is a
    parameter. *)
Definition dpsschk (dpss : nat → R → nat → array2) (N : nat) (kw : kwargs) : result array2 :=
  match default (NTapers 5) (kw_tapers kw) with
  | Precalc tp => Ok tp
  | NTapers K => Ok (dpss N (default 3 (kw_mtm_p kw)) K)
  end.

(** Modelled from the spec: [signalproc.mtfft] is not among the sources.
    It is the multitaper transform of a continuous signal with the same
    taper bank, frequency grid and zero padding as the point-process one:
    entry [(f, k, c)] is the coefficient [findx[f]] of the [nfft]-point
    transform of channel [c] multiplied by taper [k]. *)
Definition mtfft (dpss : nat → R → nat → array2) (S : array2) (kw : kwargs) :
    result array3 :=
  let Fs := default 1 (kw_Fs kw) in
  let N := (shape2 S).1 in
  let nfft := nfft_of Datautils.nextpow2 N (default 0%Z (kw_pad kw)) in
  '(f, findx) ← getfgrid Fs nfft (default (0, Fs / 2) (kw_fpass kw));
  tapers ← dpsschk dpss N kw;
  Ok (tabulate3 (length f) (shape2 tapers).2 (shape2 S).2
        (λ fi k c, dft_coeff nfft (zip_with Rmult (column tapers k) (column S c))
                             (default 0%nat (findx !! fi)))).

End Signalproc.

(** ** Notions used by the properties *)

(** A grid in ascending order. *)
Definition ascending (t : list R) : Prop :=
  ∀ i j x y, (i ≤ j)%nat → t !! i = Some x → t !! j = Some y → x <= y.

(** Number of occurrences of [e] in [l]. *)
Definition occurrences (e : R) (l : list R) : nat := length (filter (λ x, x = e) l).

(** An array whose rows agree with its shape. *)
Definition wf_array2 (A : array2) : Prop :=
  length (data2 A) = (shape2 A).1 ∧ Forall (λ row, length row = (shape2 A).2) (data2 A).

(** The power estimate in the words of the specification:
    [S[f, c]] is the mean over the tapers of [Re(J[f,k,c] · conj(J[f,k,c]))]. *)
Definition power_spectrum (ntrials : nat) (J : array3) : list (list R) :=
  (λ Jf : list (list C),
     (λ c, rmean ((λ Jfk : list C,
                     let z := default C0 (Jfk !! c) in Cre (Cmul z (Cconj z))) <$> Jf))
       <$> seq 0 ntrials) <$> J.

(** The reduction of the round trip in the words of the specification:
    the mean over the tapers of [|J|^2]. *)
Definition mean_abs2 (ntrials : nat) (J : array3) : list (list R) :=
  (λ Jf : list (list C),
     (λ c, rmean ((λ Jfk : list C, (Cmod (default C0 (Jfk !! c)))²) <$> Jf))
       <$> seq 0 ntrials) <$> J.

(** Averaging after the division, in the words of the specification: the
    coherency [S12 / sqrt(S1·S2)] of every trial, then its mean across
    trials, for every frequency. *)
Definition coherency_average_after (ntrials : nat) (J1 J2 : array3) : list C :=
  let S12 := cmean_axis1 ntrials (conj_mul3 J1 J2) in
  let S1 := cmean_axis1 ntrials (conj_mul3 J1 J1) in
  let S2 := cmean_axis1 ntrials (conj_mul3 J2 J2) in
  cmean <$> zip_with (zip_with Cdiv) S12
              ((λ row : list C, Csqrt <$> row) <$> zip_with (zip_with Cmul) S1 S2).

(** A complex 3-D array of shape [(n0, n1, n2)]. *)
Definition has_shape3 (J : array3) (n0 n1 n2 : nat) : Prop :=
  length J = n0 ∧
  Forall (λ Jf : list (list C),
            length Jf = n1 ∧ Forall (λ Jfk : list C, length Jfk = n2) Jf) J.


(** The entries of an array of rank 0, 1 or 2, in row-major order. *)
Definition nd_entries {A} (a : ndarray A) : list A :=
  match a with
  | Nd0 x => [x]
  | Nd1 v => v
  | Nd2 m => mjoin m
  end.

(** A cross-spectrum [s12] bounded by two auto-spectra: [s1] and [s2] are
    real and not negative, and [|s12|^2 <= s1 * s2]. *)
Definition schwarz (s12 s1 s2 : C) : Prop :=
  ∃ p1 p2, s1 = RtoC p1 ∧ s2 = RtoC p2 ∧ 0 <= p1 ∧ 0 <= p2 ∧ Cnorm2 s12 <= p1 * p2.

(** ** The loop of [_mtfftpt] in closed form *)

(** What one trial contributes on its own: its number of retained events,
    its mean rate and the matrix assigned to its column of [J], where the
    empty matrix stands for the scalar 0 of [J[:,:,chan] = 0]. *)
Definition trial_out (H : list (list C)) (w : list R) (interpolator : interp1d_obj)
    (t : list R) (evs : list R) : result (nat * R * list (list C)) :=
  tmin ← amin t;
  tmax ← amax t;
  let ev := in_range tmin tmax evs in
  let msp := 1 * INR (length ev) / INR (length t) in
  M ← (if decide (0 < length ev)%nat then
         data_proj ← interp1d_call interpolator ev;
         t0 ← first t;
         Ok (msub (gemm_trans_b (phase_matrix w ev t0) data_proj) (mscale H msp))
       else Ok []);
  Ok (length ev, msp, M).

(** The loop state once the trials with contributions [outs] are done. *)
Definition state_after (nfreq K ntrials : nat) (outs : list (nat * R * list (list C))) :
    loop_state :=
  {| chan := length outs;
     Nsp := ((λ o, o.1.1) <$> outs) ++ zeros 0%nat (ntrials - length outs);
     Msp := ((λ o, o.1.2) <$> outs) ++ zeros 0 (ntrials - length outs);
     J := tabulate3 nfreq K ntrials
            (λ f k c, match outs !! c with Some o => cat2 o.2 f k | None => C0 end) |}.

(** [J], [Msp] and [Nsp] assembled from the trials' contributions. *)
Definition J_of (nfreq K ntrials : nat) (outs : list (nat * R * list (list C))) : array3 :=
  tabulate3 nfreq K ntrials
    (λ f k c, match outs !! c with Some o => cat2 o.2 f k | None => C0 end).
Definition Msp_of (outs : list (nat * R * list (list C))) : list R := (λ o, o.1.2) <$> outs.
Definition Nsp_of (outs : list (nat * R * list (list C))) : list nat := (λ o, o.1.1) <$> outs.

(** ** Sample inputs *)

Module Sample.

(** Four grid points, one constant taper, the frequency 0 at index 0, and
    two trials: the first has one event on the grid and one past its end,
    the second has none. *)
Definition t : list R := [0; 1; 2; 3].
Definition tapers : array2 := Array2 (4%nat, 1%nat) [[1]; [1]; [1]; [1]].
Definition nfft : nat := 4.
Definition f : list R := [0].
Definition findx : list nat := [0%nat].
Definition tl : toelis := Toelis [[1; 5]; []] (1, 5).

End Sample.

Module SampleCall.

(** Keyword arguments: precalculated tapers and an explicit time grid,
    everything else at its default. *)
Definition kw : kwargs :=
  Kwargs (Some (Precalc Sample.tapers)) None None None None None (Some Sample.t).

Definition dpss (N : nat) (_ : R) (K : nat) : array2 :=
  Array2 (N, K) (replicate N (replicate K 1)).

Definition nfft : nat := nfft_of Datautils.nextpow2 (length Sample.t) (default 0%Z (kw_pad kw)).

Definition mtfftpt := mtfftpt Signalproc.getfgrid (Signalproc.dpsschk dpss) Datautils.nextpow2.
Definition mtspectrumpt :=
  mtspectrumpt Signalproc.getfgrid (Signalproc.dpsschk dpss) Datautils.nextpow2.

End SampleCall.

(** Two frequencies, one taper and two trials on which the order of
    averaging and dividing shows. *)
Module CoherencySample.

Definition J1 : array3 := [[[RtoC 1; RtoC 7]]; [[RtoC 1; RtoC 7]]].
Definition J2 : array3 := [[[RtoC 1; RtoC 1]]; [[RtoC 1; RtoC 1]]].

End CoherencySample.

(** A call of [coherencycpt] with [trialave]: two channels, two trials,
    the sample grid and tapers. *)
Module CoherencyCall.

Definition kw : kwargs :=
  Kwargs (Some (Precalc Sample.tapers)) None None None None (Some true) (Some Sample.t).

Definition S : signal := Sig2 (Array2 (4%nat, 2%nat) [[1; 0]; [2; 1]; [1; 2]; [0; 1]]).

Definition tl : toelis := Toelis [[1; 5]; [0; 2]] (0, 5).

Definition call :=
  coherencycpt Signalproc.getfgrid (Signalproc.dpsschk SampleCall.dpss)
    (Signalproc.mtfft SampleCall.dpss) Datautils.nextpow2.

End CoherencyCall.

(** A collection run with all keyword arguments at their defaults. *)
Module DefaultCall.

Definition kw : kwargs := Kwargs None None None None None None None.
Definition tl : toelis := Toelis [[1; 2]; [3]] (1, 3).

End DefaultCall.

(** * Properties *)

(** ** Lists built over an index range *)

Section IndexRange.
Context {A : Type}.

Lemma fmap_seq_const (x : A) (j n : nat) : (λ _, x) <$> seq j n = replicate n x.
Proof.
  revert j. induction n as [|n IH]; intros j; simpl; [done|]. by rewrite IH.
Qed.

Lemma fmap_seq_ext (g g' : nat → A) (j n : nat) :
  (∀ i, (j ≤ i < j + n)%nat → g i = g' i) → g <$> seq j n = g' <$> seq j n.
Proof.
  revert j. induction n as [|n IH]; intros j Hg; simpl; [done|].
  rewrite (Hg j) by lia. f_equal. apply IH. intros i Hi. apply Hg. lia.
Qed.

Lemma lookup_fmap_seq (g : nat → A) (n i : nat) :
  (g <$> seq 0 n) !! i = if decide (i < n)%nat then Some (g i) else None.
Proof.
  rewrite list_lookup_fmap. case_decide.
  - by rewrite lookup_seq_lt.
  - by rewrite lookup_seq_ge by lia.
Qed.

Lemma insert_fmap_seq (g : nat → A) (n i : nat) (x : A) :
  <[i := x]> (g <$> seq 0 n) = (λ c, if decide (c = i) then x else g c) <$> seq 0 n.
Proof.
  apply list_eq. intros c. rewrite lookup_fmap_seq.
  destruct (decide (c = i)) as [->|Hne].
  - case_decide.
    + rewrite list_lookup_insert_eq; [done|]. by rewrite length_fmap, length_seq.
    + rewrite list_insert_ge by (rewrite length_fmap, length_seq; lia).
      rewrite lookup_fmap_seq. by case_decide.
  - rewrite list_lookup_insert_ne by done. by rewrite lookup_fmap_seq.
Qed.

End IndexRange.

Lemma imap_fmap_seq {A B} (h : nat → A → B) (g : nat → A) (n : nat) :
  imap h (g <$> seq 0 n) = (λ i, h i (g i)) <$> seq 0 n.
Proof.
  apply list_eq. intros i. rewrite list_lookup_imap, !lookup_fmap_seq.
  by case_decide.
Qed.

Lemma tabulate3_ext n0 n1 n2 g g' :
  (∀ f k c, (f < n0)%nat → (k < n1)%nat → (c < n2)%nat → g f k c = g' f k c) →
  tabulate3 n0 n1 n2 g = tabulate3 n0 n1 n2 g'.
Proof.
  intros Hg. unfold tabulate3.
  apply fmap_seq_ext; intros f Hf. apply fmap_seq_ext; intros k Hk.
  apply fmap_seq_ext; intros c Hc. apply Hg; lia.
Qed.

Lemma at3_tabulate3 n0 n1 n2 g f k c :
  at3 (tabulate3 n0 n1 n2 g) f k c =
  if decide (f < n0 ∧ k < n1 ∧ c < n2)%nat then Some (g f k c) else None.
Proof.
  unfold at3, tabulate3. rewrite lookup_fmap_seq.
  destruct (decide (f < n0)%nat); simpl; [|case_decide; [lia|done]].
  rewrite lookup_fmap_seq.
  destruct (decide (k < n1)%nat); simpl; [|case_decide; [lia|done]].
  rewrite lookup_fmap_seq. repeat case_decide; try done; lia.
Qed.

Lemma zeros3_tabulate3 n0 n1 n2 : zeros3 n0 n1 n2 = tabulate3 n0 n1 n2 (λ _ _ _, C0).
Proof. unfold zeros3, tabulate3. by rewrite !fmap_seq_const. Qed.

Lemma set_chan_tabulate3 n0 n1 n2 g chan M :
  set_chan (tabulate3 n0 n1 n2 g) chan M =
  tabulate3 n0 n1 n2 (λ f k c, if decide (c = chan) then cat2 M f k else g f k c).
Proof.
  unfold set_chan, tabulate3. rewrite imap_fmap_seq.
  apply fmap_seq_ext; intros f _. rewrite imap_fmap_seq.
  apply fmap_seq_ext; intros k _. apply insert_fmap_seq.
Qed.

Lemma clear_chan_set_chan (J : array3) chan : clear_chan J chan = set_chan J chan [].
Proof.
  unfold clear_chan, set_chan. rewrite <- (imap_const (λ Jf : list (list C), _ <$> Jf)).
  apply imap_ext; intros f Jf _. simpl. rewrite <- imap_const.
  apply imap_ext; intros k Jfk _. simpl. done.
Qed.

(** ** The interpolation and the transform *)

Lemma ascending_tail x t : ascending (x :: t) → ascending t.
Proof. intros Hasc i j a b Hij Hi Hj. apply (Hasc (S i) (S j)); [lia|done|done]. Qed.

(** On an ascending grid [lerp] takes the value of the line through the
    two samples around [x]. *)
Lemma lerp_segment xs ys i a b ya yb x :
  ascending xs →
  xs !! i = Some a → xs !! S i = Some b → ys !! i = Some ya → ys !! S i = Some yb →
  (a < x ∨ i = 0%nat) → x <= b →
  lerp xs ys x = ya + (yb - ya) / (b - a) * (x - a).
Proof.
  revert ys i. induction xs as [|x0 xs IH]; intros ys i Hasc Ha Hb Hya Hyb Hx Hxb; [done|].
  destruct xs as [|x1 xs2]; [by destruct i|].
  destruct ys as [|y0 [|y1 ys2]]; [done|by destruct i|].
  destruct i as [|i]; simpl in Ha, Hb, Hya, Hyb.
  - injection Ha as <-. injection Hb as <-. injection Hya as <-. injection Hyb as <-.
    simpl. by rewrite decide_True by by left.
  - assert (Hx1 : x1 <= a) by (apply (Hasc 1%nat (S i)); [lia|done|done]).
    destruct Hx as [Hx|Hx]; [|done].
    simpl. rewrite decide_False.
    + apply (IH (y1 :: ys2) i); try done; [by eapply ascending_tail|by left].
    + intros [Hle|Hnil]; [lra|]. subst xs2. by destruct i.
Qed.

(** At a grid point it returns the sample. *)
Lemma lerp_node xs ys i a b ya yb :
  ascending xs →
  xs !! i = Some a → xs !! S i = Some b → ys !! i = Some ya → ys !! S i = Some yb →
  a < b → lerp xs ys b = yb.
Proof.
  intros Hasc Ha Hb Hya Hyb Hab.
  rewrite (lerp_segment xs ys i a b ya yb b Hasc Ha Hb Hya Hyb (or_introl Hab)
             (Rle_refl b)).
  field. lra.
Qed.

(** With [nfft] at least the length of the input, the transform is taken
    of the zero-padded input. *)
Lemma resize_pad n x :
  (length x ≤ n)%nat → resize n x = x ++ replicate (n - length x) 0.
Proof. intros Hn. unfold resize. by rewrite take_ge. Qed.

(** ** Results *)

Lemma bind_Ok {A B} (m : result A) (k : A → result B) b :
  m ≫= k = Ok b ↔ ∃ a, m = Ok a ∧ k a = Ok b.
Proof.
  destruct m as [a|e]; simpl; split.
  - intros Hk. by exists a.
  - by intros (a' & [= <-] & Hk).
  - done.
  - by intros (a' & [=] & _).
Qed.

Lemma traverse_Ok_length {A B} (k : A → result B) l ys :
  traverse k l = Ok ys → length ys = length l.
Proof.
  revert ys. induction l as [|x l IH]; intros ys; simpl.
  - by intros [= <-].
  - destruct (k x) as [y|e]; simpl; [|done].
    destruct (traverse k l) as [ys'|e]; simpl; [|done].
    intros [= <-]. simpl. f_equal. by apply IH.
Qed.

Lemma traverse_Ok_lookup {A B} (k : A → result B) l ys i x :
  traverse k l = Ok ys → l !! i = Some x → ∃ y, k x = Ok y ∧ ys !! i = Some y.
Proof.
  revert ys i. induction l as [|x0 l IH]; intros ys i; simpl; [done|].
  destruct (k x0) as [y0|e] eqn:Hk; simpl; [|done].
  destruct (traverse k l) as [ys'|e]; simpl; [|done].
  intros [= <-]. destruct i as [|i]; simpl.
  - intros [= <-]. by exists y0.
  - by apply IH.
Qed.

Lemma traverse_is_ok {A B} (k : A → result B) l :
  (∀ x, x ∈ l → is_ok (k x)) → is_ok (traverse k l).
Proof.
  induction l as [|x l IH]; intros Hl; simpl.
  - by eexists.
  - destruct (Hl x) as [y ->]; [left|]. simpl.
    destruct IH as [ys ->]; [intros x' Hx'; apply Hl; by right|].
    simpl. by eexists.
Qed.

(** ** The loop of [_mtfftpt], trial by trial *)

Lemma insert_app_zeros {A} (l : list A) (x z : A) (n : nat) :
  (length l < n)%nat →
  <[length l := x]> (l ++ zeros z (n - length l)) = (l ++ [x]) ++ zeros z (n - length (l ++ [x])).
Proof.
  intros Hn. unfold zeros. rewrite insert_app_r_alt by lia.
  rewrite Nat.sub_diag, length_app. simpl.
  replace (n - length l)%nat with (S (n - (length l + 1))) by lia.
  simpl. by rewrite <- app_assoc.
Qed.

Lemma lookup_total_app_zeros (l : list R) (x : R) (n : nat) :
  ((l ++ [x]) ++ zeros 0 n) !!! length l = x.
Proof.
  apply list_lookup_total_correct.
  rewrite lookup_app_l by (rewrite length_app; simpl; lia).
  by rewrite lookup_app_r, Nat.sub_diag by lia.
Qed.

Section Loop.
Variables (H : list (list C)) (w : list R) (interpolator : interp1d_obj) (t : list R).
Variables (nfreq K ntrials : nat).

Lemma state_after_nil :
  state_after nfreq K ntrials [] =
  {| chan := 0; Nsp := zeros 0%nat ntrials; Msp := zeros 0 ntrials;
     J := zeros3 nfreq K ntrials |}.
Proof.
  unfold state_after. simpl. rewrite Nat.sub_0_r. f_equal.
  by rewrite zeros3_tabulate3.
Qed.

Lemma J_after_snoc outs o M :
  o.2 = M →
  set_chan (J (state_after nfreq K ntrials outs)) (length outs) M =
  J (state_after nfreq K ntrials (outs ++ [o])).
Proof.
  intros <-. simpl. rewrite set_chan_tabulate3. apply tabulate3_ext.
  intros f k c _ _ _. case_decide as Hc.
  - subst c. by rewrite lookup_app_r, Nat.sub_diag by lia.
  - destruct (decide (c < length outs)%nat).
    + by rewrite lookup_app_l by done.
    + rewrite !lookup_ge_None_2; [done| |lia].
      rewrite length_app. simpl. lia.
Qed.

(** One iteration stores what the trial contributes on its own. *)
Lemma trial_body_state outs evs :
  (length outs < ntrials)%nat →
  trial_body H w interpolator t (state_after nfreq K ntrials outs) evs =
  o ← trial_out H w interpolator t evs;
  Ok (state_after nfreq K ntrials (outs ++ [o])).
Proof.
  intros Hlt. unfold trial_body, trial_out.
  destruct (amin t) as [tmin|e]; simpl; [|done].
  destruct (amax t) as [tmax|e]; simpl; [|done].
  set (ev := in_range tmin tmax evs).
  set (msp := 1 * INR (length ev) / INR (length t)).
  assert (HN : <[length outs:=length ev]>
                 (((λ o, o.1.1) <$> outs) ++ zeros 0%nat (ntrials - length outs)) =
               Nsp (state_after nfreq K ntrials (outs ++ [(length ev, msp, [])]))).
  { simpl. rewrite fmap_app. simpl.
    rewrite <- (length_fmap (λ o : nat * R * list (list C), o.1.1) outs) at 1 2.
    rewrite insert_app_zeros by (by rewrite length_fmap).
    by rewrite !length_app, !length_fmap. }
  assert (HM : <[length outs:=msp]>
                 (((λ o, o.1.2) <$> outs) ++ zeros 0 (ntrials - length outs)) =
               Msp (state_after nfreq K ntrials (outs ++ [(length ev, msp, [])]))).
  { simpl. rewrite fmap_app. simpl.
    rewrite <- (length_fmap (λ o : nat * R * list (list C), o.1.2) outs) at 1 2.
    rewrite insert_app_zeros by (by rewrite length_fmap).
    by rewrite !length_app, !length_fmap. }
  rewrite HN, HM. clear HN HM.
  case_decide as Hev.
  - destruct (interp1d_call interpolator ev) as [dp|e]; simpl; [|done].
    destruct (first t) as [t0|e]; simpl; [|done].
    f_equal. unfold state_after. f_equal.
    + by rewrite !length_app.
    + by rewrite !fmap_app, !length_app.
    + by rewrite !fmap_app, !length_app.
    + rewrite fmap_app. simpl.
      rewrite <- (length_fmap (λ o : nat * R * list (list C), o.1.2) outs) at 2.
      rewrite lookup_total_app_zeros.
      by apply (J_after_snoc outs (length ev, msp, _)).
  - rewrite clear_chan_set_chan. simpl.
    f_equal. unfold state_after. f_equal.
    + by rewrite !length_app.
    + by apply (J_after_snoc outs (length ev, msp, [])).
Qed.

(** The loop is the trial-by-trial computation, stored in order. *)
Lemma for_each_trial_body evss outs :
  (length outs + length evss ≤ ntrials)%nat →
  for_each (trial_body H w interpolator t) (state_after nfreq K ntrials outs) evss =
  os ← traverse (trial_out H w interpolator t) evss;
  Ok (state_after nfreq K ntrials (outs ++ os)).
Proof.
  revert outs. induction evss as [|evs evss IH]; intros outs Hlen; simpl.
  - by rewrite app_nil_r.
  - simpl in Hlen. rewrite trial_body_state by lia.
    destruct (trial_out H w interpolator t evs) as [o|e]; simpl; [|done].
    rewrite IH by (rewrite length_app; simpl; lia).
    destruct (traverse _ evss) as [os|e]; simpl; [|done].
    by rewrite <- app_assoc.
Qed.

End Loop.

(** [_mtfftpt] runs the trials one by one and stores their contributions
    in order: nothing is carried from one trial to the next. *)
Lemma _mtfftpt_by_trial tl tapers nfft t f findx :
  _mtfftpt tl tapers nfft t f findx =
  if decide (length f = length findx) then
    H0 ← fft_axis0 tapers nfft;
    H ← take_rows H0 findx;
    interpolator ← interp1d t ((shape2 tapers).2, (shape2 tapers).1) (transpose tapers);
    outs ← traverse (trial_out H ((λ x, 2 * x * PI) <$> f) interpolator t) (events tl);
    Ok (J_of (length f) (shape2 tapers).2 (length (events tl)) outs, Msp_of outs, Nsp_of outs)
  else Err (AssertionError msg_freq).
Proof.
  unfold _mtfftpt. destruct (shape2 tapers) as [N K]. simpl.
  case_decide as Hsz; [|done].
  destruct (fft_axis0 tapers nfft) as [H0|e]; simpl; [|done].
  destruct (take_rows H0 findx) as [H|e]; simpl; [|done].
  destruct (interp1d t (K, N) (transpose tapers)) as [interpolator|e]; simpl; [|done].
  rewrite <- state_after_nil, for_each_trial_body by (simpl; lia).
  destruct (traverse _ (events tl)) as [outs|e] eqn:Houts; simpl; [|done].
  apply traverse_Ok_length in Houts. rewrite Houts, Nat.sub_diag.
  unfold zeros. simpl. by rewrite !app_nil_r.
Qed.

(** ** Entries of the matrices of one trial *)

Lemma cat2_lookup (M : list (list C)) (f k : nat) (row : list C) (z : C) :
  M !! f = Some row → row !! k = Some z → cat2 M f k = z.
Proof. intros Hf Hk. unfold cat2. rewrite Hf. simpl. by rewrite Hk. Qed.

Lemma lookup_msub A B f a b :
  A !! f = Some a → B !! f = Some b → msub A B !! f = Some (zip_with Csub a b).
Proof. intros Ha Hb. unfold msub. by rewrite lookup_zip_with, Ha, Hb. Qed.

Lemma lookup_mscale Hm x f h :
  Hm !! f = Some h → mscale Hm x !! f = Some ((λ z, Cscale z x) <$> h).
Proof. intros Hh. unfold mscale. by rewrite list_lookup_fmap, Hh. Qed.

Lemma lookup_gemm_trans_b A B f a :
  A !! f = Some a →
  gemm_trans_b A B !! f = Some ((λ Bj, csum (zip_with Cscale a Bj)) <$> B).
Proof. intros Ha. unfold gemm_trans_b. by rewrite list_lookup_fmap, Ha. Qed.

Lemma take_rows_Ok_lookup {A} (Hm : list A) findx rows i m :
  take_rows Hm findx = Ok rows → findx !! i = Some m →
  ∃ r, Hm !! m = Some r ∧ rows !! i = Some r.
Proof.
  intros Hrows Hi. unfold take_rows in Hrows.
  destruct (traverse_Ok_lookup _ _ _ _ _ Hrows Hi) as (r & Hr & Hri).
  exists r. destruct (Hm !! m); [|done]. by injection Hr as ->.
Qed.

Lemma take_rows_is_ok {A} (Hm : list A) findx :
  Forall (λ i, i < length Hm)%nat findx → is_ok (take_rows Hm findx).
Proof.
  intros Hall. apply traverse_is_ok. intros i Hi.
  rewrite Forall_forall in Hall. apply Hall in Hi.
  destruct (lookup_lt_is_Some_2 Hm i Hi) as [r ->]. by eexists.
Qed.

(** ** Minimum and maximum of the time grid *)

Lemma foldr_Rmin_le x l : foldr Rmin x l <= x ∧ ∀ e, e ∈ l → foldr Rmin x l <= e.
Proof.
  induction l as [|y l [IHx IHl]]; simpl.
  - split; [lra|]. intros e He. by apply elem_of_nil in He.
  - split.
    + etrans; [apply Rmin_r|done].
    + intros e [->|He]%elem_of_cons; [apply Rmin_l|].
      etrans; [apply Rmin_r|by apply IHl].
Qed.

Lemma foldr_Rmax_ge x l : x <= foldr Rmax x l ∧ ∀ e, e ∈ l → e <= foldr Rmax x l.
Proof.
  induction l as [|y l [IHx IHl]]; simpl.
  - split; [lra|]. intros e He. by apply elem_of_nil in He.
  - split.
    + etrans; [done|apply Rmax_r].
    + intros e [->|He]%elem_of_cons; [apply Rmax_l|].
      etrans; [by apply IHl|apply Rmax_r].
Qed.

Lemma foldr_Rmin_elem x l : foldr Rmin x l ∈ x :: l.
Proof.
  induction l as [|y l IH]; simpl; [left|].
  unfold Rmin at 1. destruct (Rle_dec _ _).
  - right. left.
  - apply elem_of_cons in IH as [->|IH]; [left|right; by right].
Qed.

Lemma foldr_Rmax_elem x l : foldr Rmax x l ∈ x :: l.
Proof.
  induction l as [|y l IH]; simpl; [left|].
  unfold Rmax at 1. destruct (Rle_dec _ _).
  - apply elem_of_cons in IH as [->|IH]; [left|right; by right].
  - right. left.
Qed.

(** [t.min()] is an entry of [t] below all the others. *)
Lemma amin_spec t m : amin t = Ok m → m ∈ t ∧ ∀ e, e ∈ t → m <= e.
Proof.
  destruct t as [|x t]; simpl; [done|]. intros [= <-]. split.
  - apply foldr_Rmin_elem.
  - destruct (foldr_Rmin_le x t) as [Hx Ht].
    intros e [->|He]%elem_of_cons; [done|by apply Ht].
Qed.

Lemma amax_spec t m : amax t = Ok m → m ∈ t ∧ ∀ e, e ∈ t → e <= m.
Proof.
  destruct t as [|x t]; simpl; [done|]. intros [= <-]. split.
  - apply foldr_Rmax_elem.
  - destruct (foldr_Rmax_ge x t) as [Hx Ht].
    intros e [->|He]%elem_of_cons; [done|by apply Ht].
Qed.

Lemma amin_ascending t x : ascending t → head t = Some x → amin t = Ok x.
Proof.
  intros Hasc Hx. destruct t as [|x0 t]; simpl in *; [done|].
  injection Hx as ->. f_equal.
  destruct (foldr_Rmin_le x t) as [Hle _].
  apply Rle_antisym; [done|].
  pose proof (foldr_Rmin_elem x t) as He.
  apply elem_of_cons in He as [->|He]; [lra|].
  apply list_elem_of_lookup in He as [j Hj].
  apply (Hasc 0%nat (S j)); [lia|done|done].
Qed.

Lemma amax_ascending t y : ascending t → last t = Some y → amax t = Ok y.
Proof.
  intros Hasc Hy. destruct t as [|x0 t]; [done|]. simpl. f_equal.
  pose proof Hy as Hlast. rewrite last_lookup in Hlast.
  apply Rle_antisym.
  - pose proof (foldr_Rmax_elem x0 t) as He.
    apply elem_of_cons in He as [He|He].
    + rewrite He. apply (Hasc 0%nat (pred (length (x0 :: t)))); [lia|done|done].
    + apply list_elem_of_lookup in He as [j Hj].
      apply lookup_lt_Some in Hj as Hlt.
      apply (Hasc (S j) (pred (length (x0 :: t)))); [simpl; lia|done|done].
  - destruct (foldr_Rmax_ge x0 t) as [Hx Ht].
    destruct t as [|x1 t'].
    + simpl in Hy. by injection Hy as <-.
    + apply Ht. simpl in Hlast. by eapply list_elem_of_lookup_2.
Qed.

(** ** What a successful run of [_mtfftpt] consists of *)

Lemma _mtfftpt_Ok_inv tl tapers nfft t f findx J Msp Nsp :
  _mtfftpt tl tapers nfft t f findx = Ok (J, Msp, Nsp) →
  ∃ H0 H interpolator outs,
    length f = length findx ∧
    fft_axis0 tapers nfft = Ok H0 ∧
    take_rows H0 findx = Ok H ∧
    interp1d t ((shape2 tapers).2, (shape2 tapers).1) (transpose tapers) = Ok interpolator ∧
    traverse (trial_out H ((λ x, 2 * x * PI) <$> f) interpolator t) (events tl) = Ok outs ∧
    J = J_of (length f) (shape2 tapers).2 (length (events tl)) outs ∧
    Msp = Msp_of outs ∧ Nsp = Nsp_of outs.
Proof.
  rewrite _mtfftpt_by_trial. case_decide as Hsz; [|done]. intros Hrun.
  apply bind_Ok in Hrun as (H0 & HH0 & Hrun).
  apply bind_Ok in Hrun as (H & HH & Hrun).
  apply bind_Ok in Hrun as (interpolator & HI & Hrun).
  apply bind_Ok in Hrun as (outs & Houts & Hrun).
  injection Hrun as <- <- <-. by exists H0, H, interpolator, outs.
Qed.

Lemma trial_out_Ok_inv H w interpolator t evs o :
  trial_out H w interpolator t evs = Ok o →
  ∃ tmin tmax,
    amin t = Ok tmin ∧ amax t = Ok tmax ∧
    o.1.1 = length (in_range tmin tmax evs) ∧
    o.1.2 = 1 * INR (length (in_range tmin tmax evs)) / INR (length t) ∧
    (in_range tmin tmax evs = [] → o.2 = []) ∧
    (in_range tmin tmax evs ≠ [] →
     ∃ data_proj t0,
       interp1d_call interpolator (in_range tmin tmax evs) = Ok data_proj ∧
       first t = Ok t0 ∧
       o.2 = msub (gemm_trans_b (phase_matrix w (in_range tmin tmax evs) t0) data_proj)
                  (mscale H o.1.2)).
Proof.
  unfold trial_out.
  destruct (amin t) as [tmin|e]; simpl; [|done].
  destruct (amax t) as [tmax|e]; simpl; [|done].
  intros Ho. exists tmin, tmax. split; [done|]. split; [done|].
  destruct (in_range tmin tmax evs) as [|e0 ev] eqn:Hev.
  - simpl in Ho. injection Ho as <-. simpl. by repeat split.
  - rewrite decide_True in Ho by (simpl; lia).
    destruct (interp1d_call interpolator (e0 :: ev)) as [dp|e]; simpl in Ho; [|done].
    destruct (first t) as [t0|e]; simpl in Ho; [|done].
    injection Ho as <-. simpl. repeat split; [done|].
    intros _. by exists dp, t0.
Qed.

(** The contribution of the trial at index [c] of a successful run. *)
Lemma _mtfftpt_Ok_trial tl tapers nfft t f findx J Msp Nsp c evs :
  _mtfftpt tl tapers nfft t f findx = Ok (J, Msp, Nsp) →
  events tl !! c = Some evs →
  ∃ H0 H interpolator o,
    fft_axis0 tapers nfft = Ok H0 ∧
    take_rows H0 findx = Ok H ∧
    interp1d t ((shape2 tapers).2, (shape2 tapers).1) (transpose tapers) = Ok interpolator ∧
    trial_out H ((λ x, 2 * x * PI) <$> f) interpolator t evs = Ok o ∧
    Nsp !! c = Some o.1.1 ∧ Msp !! c = Some o.1.2 ∧
    ∀ fi k, at3 J fi k c =
            if decide (fi < length f ∧ k < (shape2 tapers).2)%nat
            then Some (cat2 o.2 fi k) else None.
Proof.
  intros Hrun Hc.
  apply _mtfftpt_Ok_inv in Hrun
    as (H0 & H & interpolator & outs & Hsz & HH0 & HH & HI & Houts & -> & -> & ->).
  destruct (traverse_Ok_lookup _ _ _ _ _ Houts Hc) as (o & Ho & Hoc).
  exists H0, H, interpolator, o. repeat split; try done.
  - unfold Nsp_of. by rewrite list_lookup_fmap, Hoc.
  - unfold Msp_of. by rewrite list_lookup_fmap, Hoc.
  - intros fi k. unfold J_of. rewrite at3_tabulate3, Hoc.
    apply lookup_lt_Some in Hc. repeat case_decide; try done; lia.
Qed.

(** ** The retained events *)

Lemma in_range_sublist tmin tmax evs : sublist (in_range tmin tmax evs) evs.
Proof. apply sublist_filter. Qed.

Lemma elem_of_in_range tmin tmax evs e :
  e ∈ in_range tmin tmax evs ↔ e ∈ evs ∧ tmin <= e ∧ e <= tmax.
Proof. unfold in_range. rewrite list_elem_of_filter. tauto. Qed.

Lemma occurrences_in_range tmin tmax evs e :
  tmin <= e ∧ e <= tmax → occurrences e (in_range tmin tmax evs) = occurrences e evs.
Proof.
  intros He. unfold occurrences, in_range.
  induction evs as [|x evs IH]; [done|].
  rewrite !filter_cons. destruct (decide (x = e)) as [->|Hne].
  - rewrite decide_True by done. rewrite filter_cons, decide_True by done.
    simpl. by rewrite IH.
  - case_decide; [|done]. by rewrite filter_cons, decide_False.
Qed.

Lemma in_range_all tmin tmax evs :
  (∀ e, e ∈ evs → tmin <= e ∧ e <= tmax) → in_range tmin tmax evs = evs.
Proof.
  intros Hall. unfold in_range. induction evs as [|x evs IH]; [done|].
  rewrite filter_cons, decide_True by (apply Hall; left).
  rewrite IH; [done|]. intros e He. apply Hall. by right.
Qed.

(** ** When [_mtfftpt] returns *)

Lemma amin_is_ok t : t ≠ [] → is_ok (amin t).
Proof. destruct t; [done|]. intros _. by eexists. Qed.

Lemma amax_is_ok t : t ≠ [] → is_ok (amax t).
Proof. destruct t; [done|]. intros _. by eexists. Qed.

Lemma first_is_ok t : t ≠ [] → is_ok (first t).
Proof. destruct t; [done|]. intros _. by eexists. Qed.

Lemma in_bounds_ascending t tmin tmax e :
  ascending t → amin t = Ok tmin → amax t = Ok tmax →
  tmin <= e ∧ e <= tmax → in_bounds t e.
Proof.
  intros Hasc Hmin Hmax He. unfold in_bounds.
  destruct t as [|x t']; [done|].
  destruct (head (x :: t')) as [x0|] eqn:Hhd; [|done].
  destruct (last (x :: t')) as [xn|] eqn:Hlast.
  2: { rewrite last_cons in Hlast. by destruct (last t'). }
  rewrite (amin_ascending _ x0 Hasc Hhd) in Hmin.
  rewrite (amax_ascending _ xn Hasc Hlast) in Hmax.
  by injection Hmin as ->; injection Hmax as ->.
Qed.

Lemma interp1d_Ok t K N y :
  length t = N → interp1d t (K, N) y = Ok (Interp1d t y).
Proof. intros Hlen. unfold interp1d. simpl. by rewrite decide_True. Qed.

Lemma fft_axis0_Ok tapers nfft :
  nfft ≠ 0%nat →
  fft_axis0 tapers nfft =
  Ok ((λ m, (λ k, dft_coeff nfft (column tapers k) m) <$> seq 0 (shape2 tapers).2)
        <$> seq 0 nfft).
Proof. intros Hn. unfold fft_axis0. by rewrite decide_False. Qed.

Lemma trial_out_is_ok H w interpolator t evs :
  t ≠ [] →
  (∀ tmin tmax, amin t = Ok tmin → amax t = Ok tmax →
                Forall (in_bounds (ix interpolator)) (in_range tmin tmax evs)) →
  is_ok (trial_out H w interpolator t evs).
Proof.
  intros Ht Hb. unfold trial_out.
  destruct (amin_is_ok t Ht) as [tmin Hmin]. destruct (amax_is_ok t Ht) as [tmax Hmax].
  destruct (first_is_ok t Ht) as [t0 Ht0].
  rewrite Hmin, Hmax. simpl. case_decide; simpl; [|by eexists].
  unfold interp1d_call. rewrite decide_True by by apply Hb.
  simpl. rewrite Ht0. simpl. by eexists.
Qed.

(** The run returns when the sizes are consistent and no retained event
    falls outside the interpolation range. *)
Lemma _mtfftpt_returns_in_bounds tl tapers nfft t f findx :
  length f = length findx → nfft ≠ 0%nat → Forall (λ i, i < nfft)%nat findx →
  length t = (shape2 tapers).1 → t ≠ [] →
  (∀ evs tmin tmax, evs ∈ events tl → amin t = Ok tmin → amax t = Ok tmax →
                    Forall (in_bounds t) (in_range tmin tmax evs)) →
  is_ok (_mtfftpt tl tapers nfft t f findx).
Proof.
  intros Hsz Hnfft Hfindx Hlen Ht Hb.
  rewrite _mtfftpt_by_trial, decide_True by done.
  rewrite fft_axis0_Ok by done. simpl.
  destruct (take_rows_is_ok
              ((λ m, (λ k, dft_coeff nfft (column tapers k) m) <$> seq 0 (shape2 tapers).2)
                 <$> seq 0 nfft) findx) as [H ->].
  { by rewrite length_fmap, length_seq. }
  simpl. rewrite interp1d_Ok by done. simpl.
  destruct (traverse_is_ok
              (trial_out H ((λ x, 2 * x * PI) <$> f) (Interp1d t (transpose tapers)) t)
              (events tl)) as [outs ->].
  { intros evs Hevs. apply trial_out_is_ok; [done|]. simpl. intros. by eapply Hb. }
  simpl. by eexists.
Qed.

(** In particular it returns on an ascending grid. *)
Lemma _mtfftpt_returns tl tapers nfft t f findx :
  length f = length findx → nfft ≠ 0%nat → Forall (λ i, i < nfft)%nat findx →
  length t = (shape2 tapers).1 → t ≠ [] → ascending t →
  is_ok (_mtfftpt tl tapers nfft t f findx).
Proof.
  intros Hsz Hnfft Hfindx Hlen Ht Hasc.
  apply _mtfftpt_returns_in_bounds; try done.
  intros evs tmin tmax _ Hmin Hmax. apply Forall_forall. intros e He.
  apply elem_of_in_range in He as [_ He]. by eapply in_bounds_ascending.
Qed.

(** ** A run on a small collection *)

Module SampleFacts.
Import Sample.

Lemma t_ascending : ascending t.
Proof.
  intros i j x y Hij Hi Hj. unfold t in *.
  destruct i as [|[|[|[|i]]]]; simpl in Hi; try done; injection Hi as <-;
    destruct j as [|[|[|[|j]]]]; simpl in Hj; try done; try lia;
    injection Hj as <-; lra.
Qed.

Lemma sample_returns (evss : list (list R)) (r : R * R) :
  is_ok (_mtfftpt (Toelis evss r) tapers nfft t f findx).
Proof.
  apply _mtfftpt_returns; try done.
  - repeat constructor.
  - apply t_ascending.
Qed.

Lemma t_min : amin t = Ok 0.
Proof. by apply amin_ascending; [apply t_ascending|]. Qed.

Lemma t_max : amax t = Ok 3.
Proof. by apply amax_ascending; [apply t_ascending|]. Qed.

Lemma retained_first : in_range 0 3 [1; 5] = [1].
Proof.
  unfold in_range. rewrite !filter_cons, filter_nil.
  rewrite decide_True by lra. by rewrite decide_False by lra.
Qed.

End SampleFacts.

(** * The transformer and the estimators *)

(** C2.  For every trial [c] of a run of [_mtfftpt], the retained events
    [ev] are exactly the events of the trial that lie between the minimum
    and the maximum of the time grid, bounds included: [ev] is a
    subsequence of the trial's events (order preserved), an event belongs to
    it if and only if it is in range, and an in-range time occurs in it as
    often as in the trial (duplicates counted).  [Nsp[c]] is the number of
    retained events and [Msp[c]] that number divided by the length of the
    grid. *)
Theorem retained_events_and_counts tl tapers nfft t f findx J Msp Nsp c evs :
  _mtfftpt tl tapers nfft t f findx = Ok (J, Msp, Nsp) →
  events tl !! c = Some evs →
  ∃ tmin tmax,
    (tmin ∈ t ∧ ∀ x, x ∈ t → tmin <= x) ∧
    (tmax ∈ t ∧ ∀ x, x ∈ t → x <= tmax) ∧
    let ev := in_range tmin tmax evs in
    sublist ev evs ∧
    (∀ e, e ∈ ev ↔ e ∈ evs ∧ tmin <= e ∧ e <= tmax) ∧
    (∀ e, tmin <= e ∧ e <= tmax → occurrences e ev = occurrences e evs) ∧
    Nsp !! c = Some (length ev) ∧
    Msp !! c = Some (INR (length ev) / INR (length t)).
Proof.
  intros Hrun Hc.
  destruct (_mtfftpt_Ok_trial _ _ _ _ _ _ _ _ _ _ _ Hrun Hc)
    as (H0 & H & interpolator & o & _ & _ & _ & Ho & HN & HM & _).
  apply trial_out_Ok_inv in Ho as (tmin & tmax & Hmin & Hmax & Hn & Hm & _).
  exists tmin, tmax.
  split; [by apply amin_spec|]. split; [by apply amax_spec|]. simpl.
  split; [apply in_range_sublist|].
  split; [apply elem_of_in_range|].
  split; [apply occurrences_in_range|].
  split; [by rewrite HN, Hn|].
  rewrite HM, Hm. f_equal. unfold Rdiv. ring.
Qed.

Lemma retained_events_and_counts_witness :
  ∃ J Msp Nsp,
    _mtfftpt Sample.tl Sample.tapers Sample.nfft Sample.t Sample.f Sample.findx
      = Ok (J, Msp, Nsp) ∧
    events Sample.tl !! 0%nat = Some [1; 5] ∧
    ∃ tmin tmax,
      (tmin ∈ Sample.t ∧ ∀ x, x ∈ Sample.t → tmin <= x) ∧
      (tmax ∈ Sample.t ∧ ∀ x, x ∈ Sample.t → x <= tmax) ∧
      let ev := in_range tmin tmax [1; 5] in
      sublist ev [1; 5] ∧
      (∀ e, e ∈ ev ↔ e ∈ [1; 5] ∧ tmin <= e ∧ e <= tmax) ∧
      (∀ e, tmin <= e ∧ e <= tmax → occurrences e ev = occurrences e [1; 5]) ∧
      Nsp !! 0%nat = Some (length ev) ∧
      Msp !! 0%nat = Some (INR (length ev) / INR (length Sample.t)).
Proof.
  destruct (SampleFacts.sample_returns [[1; 5]; []] (1, 5)) as [[[J Msp] Nsp] Hrun].
  exists J, Msp, Nsp. split; [exact Hrun|]. split; [reflexivity|].
  exact (retained_events_and_counts _ _ _ _ _ _ _ _ _ 0%nat [1; 5] Hrun eq_refl).
Defined.

(** C9.  The output of [_mtfftpt] at trial index [c] depends only on the
    events of trial [c] and on the inputs shared by all trials: two
    collections run with the same tapers, transform length, grids and
    indices, and with the same events in trial [c], get the same [Nsp[c]],
    [Msp[c]] and column [J[:,:,c]]; and these are what the run on the
    collection made of that trial alone gives at index 0. *)
Theorem trial_independence tl tl' tapers nfft t f findx J Msp Nsp J' Msp' Nsp' c evs :
  _mtfftpt tl tapers nfft t f findx = Ok (J, Msp, Nsp) →
  _mtfftpt tl' tapers nfft t f findx = Ok (J', Msp', Nsp') →
  events tl !! c = Some evs →
  events tl' !! c = Some evs →
  (Nsp !! c = Nsp' !! c ∧ Msp !! c = Msp' !! c ∧
   ∀ fi k, at3 J fi k c = at3 J' fi k c) ∧
  ∃ J1 Msp1 Nsp1,
    _mtfftpt (Toelis [evs] (range tl)) tapers nfft t f findx = Ok (J1, Msp1, Nsp1) ∧
    Nsp !! c = Nsp1 !! 0%nat ∧ Msp !! c = Msp1 !! 0%nat ∧
    ∀ fi k, at3 J fi k c = at3 J1 fi k 0.
Proof.
  intros Hrun Hrun' Hc Hc'.
  pose proof (_mtfftpt_Ok_inv _ _ _ _ _ _ _ _ _ Hrun) as (_ & _ & _ & _ & Hsz & _).
  destruct (_mtfftpt_Ok_trial _ _ _ _ _ _ _ _ _ _ _ Hrun Hc)
    as (H0 & H & interpolator & o & HH0 & HH & HI & Ho & HN & HM & HJ).
  destruct (_mtfftpt_Ok_trial _ _ _ _ _ _ _ _ _ _ _ Hrun' Hc')
    as (H0' & H' & interpolator' & o' & HH0' & HH' & HI' & Ho' & HN' & HM' & HJ').
  rewrite HH0 in HH0'. injection HH0' as <-.
  rewrite HH in HH'. injection HH' as <-.
  rewrite HI in HI'. injection HI' as <-.
  rewrite Ho in Ho'. injection Ho' as <-.
  split.
  - split; [by rewrite HN, HN'|]. split; [by rewrite HM, HM'|].
    intros fi k. by rewrite HJ, HJ'.
  - assert (Hrun1 : _mtfftpt (Toelis [evs] (range tl)) tapers nfft t f findx =
                    Ok (J_of (length f) (shape2 tapers).2 1 [o], Msp_of [o], Nsp_of [o])).
    { rewrite _mtfftpt_by_trial, decide_True by done.
      rewrite HH0. simpl. rewrite HH. simpl. rewrite HI. simpl. by rewrite Ho. }
    eexists _, _, _. split; [exact Hrun1|].
    destruct (_mtfftpt_Ok_trial _ _ _ _ _ _ _ _ _ 0%nat evs Hrun1 eq_refl)
      as (H01 & H1 & interpolator1 & o1 & HH01 & HH1 & HI1 & Ho1 & HN1 & HM1 & HJ1).
    rewrite HH0 in HH01. injection HH01 as <-.
    rewrite HH in HH1. injection HH1 as <-.
    rewrite HI in HI1. injection HI1 as <-.
    rewrite Ho in Ho1. injection Ho1 as <-.
    split; [by rewrite HN, HN1|]. split; [by rewrite HM, HM1|].
    intros fi k. by rewrite HJ, HJ1.
Qed.

Lemma trial_independence_witness :
  ∃ J Msp Nsp J' Msp' Nsp',
    _mtfftpt (Toelis [[2]; [1; 5]] (1, 5)) Sample.tapers Sample.nfft Sample.t Sample.f
      Sample.findx = Ok (J, Msp, Nsp) ∧
    _mtfftpt (Toelis [[]; [1; 5]; [0; 3]] (0, 5)) Sample.tapers Sample.nfft Sample.t
      Sample.f Sample.findx = Ok (J', Msp', Nsp') ∧
    (Nsp !! 1%nat = Nsp' !! 1%nat ∧ Msp !! 1%nat = Msp' !! 1%nat ∧
     ∀ fi k, at3 J fi k 1 = at3 J' fi k 1) ∧
    ∃ J1 Msp1 Nsp1,
      _mtfftpt (Toelis [[1; 5]] (1, 5)) Sample.tapers Sample.nfft Sample.t Sample.f
        Sample.findx = Ok (J1, Msp1, Nsp1) ∧
      Nsp !! 1%nat = Nsp1 !! 0%nat ∧ Msp !! 1%nat = Msp1 !! 0%nat ∧
      ∀ fi k, at3 J fi k 1 = at3 J1 fi k 0.
Proof.
  destruct (SampleFacts.sample_returns [[2]; [1; 5]] (1, 5)) as [[[J Msp] Nsp] Hrun].
  destruct (SampleFacts.sample_returns [[]; [1; 5]; [0; 3]] (0, 5)) as [[[J' Msp'] Nsp'] Hrun'].
  exists J, Msp, Nsp, J', Msp', Nsp'. split; [exact Hrun|]. split; [exact Hrun'|].
  exact (trial_independence _ _ _ _ _ _ _ _ _ _ _ _ _ 1%nat [1; 5]
           Hrun Hrun' eq_refl eq_refl).
Defined.

(** ** The column of a trial with retained events *)

Lemma fft_axis0_Ok_inv tapers nfft H0 :
  fft_axis0 tapers nfft = Ok H0 →
  H0 = (λ m, (λ k, dft_coeff nfft (column tapers k) m) <$> seq 0 (shape2 tapers).2)
         <$> seq 0 nfft.
Proof. unfold fft_axis0. case_decide; [done|]. by intros [= <-]. Qed.

Lemma interp1d_Ok_inv t shape y interpolator :
  interp1d t shape y = Ok interpolator → interpolator = Interp1d t y.
Proof. unfold interp1d. case_decide; [|done]. by intros [= <-]. Qed.

Lemma interp1d_call_Ok_inv interpolator ev data_proj :
  interp1d_call interpolator ev = Ok data_proj →
  data_proj = (λ yk, lerp (ix interpolator) yk <$> ev) <$> iy interpolator.
Proof. unfold interp1d_call. case_decide; [|done]. by intros [= <-]. Qed.

Lemma lookup_phase_matrix w ev t0 fi wf :
  w !! fi = Some wf →
  phase_matrix w ev t0 !! fi =
  Some ((λ e, Cexp (Cscale (Cscale (0, -1) wf) (e - t0))) <$> ev).
Proof.
  intros Hw. unfold phase_matrix, outer.
  rewrite !list_lookup_fmap, Hw. simpl. f_equal.
  rewrite <- !list_fmap_compose. done.
Qed.

(** [exp(-i x)] as the code forms it from the outer product. *)
Lemma phase_entry wf d :
  Cexp (Cscale (Cscale (0, -1) wf) d) = Cexp (Cmul (0, -1) (RtoC (wf * d))).
Proof. unfold Cscale, Cmul, RtoC. simpl. f_equal. f_equal; ring. Qed.

Lemma cat2_trial_matrix w ev t0 (data_proj : list (list R)) (H : list (list C)) x
    fi k wf dpk hrow h :
  w !! fi = Some wf → data_proj !! k = Some dpk →
  H !! fi = Some hrow → hrow !! k = Some h →
  cat2 (msub (gemm_trans_b (phase_matrix w ev t0) data_proj) (mscale H x)) fi k =
  Csub (csum (zip_with Cscale ((λ e, Cexp (Cscale (Cscale (0, -1) wf) (e - t0))) <$> ev) dpk))
       (Cscale h x).
Proof.
  intros Hw Hdp HH Hh.
  eapply cat2_lookup.
  - eapply lookup_msub.
    + eapply lookup_gemm_trans_b. by apply lookup_phase_matrix.
    + by apply lookup_mscale.
  - rewrite lookup_zip_with, !list_lookup_fmap, Hdp, Hh. done.
Qed.

(** C1.  In a run of [_mtfftpt], for a trial [c] with at least one retained
    event, the entry [(f, k)] of the trial's column of [J] is the sum over
    the retained events [e] of [exp(-i w[f] (e - t[0]))] times the taper [k]
    linearly interpolated at [e], minus [H[f, k] * Msp[c]]: that is
    [Y · data_projection^T − H · Msp[c]] with [w = 2 pi f], [Y] of shape
    [|f| × |ev|], the interpolated tapers of shape [K × |ev|], and [H[f, k]]
    the coefficient [findx[f]] of the [nfft]-point transform of taper [k],
    which depends on no trial. *)
Theorem spectral_column tl tapers nfft t f findx J Msp Nsp c evs tmin tmax t0 :
  _mtfftpt tl tapers nfft t f findx = Ok (J, Msp, Nsp) →
  events tl !! c = Some evs →
  amin t = Ok tmin → amax t = Ok tmax → first t = Ok t0 →
  let ev := in_range tmin tmax evs in
  let w := (λ x, 2 * PI * x) <$> f in
  ev ≠ [] →
  let Y := phase_matrix ((λ x, 2 * x * PI) <$> f) ev t0 in
  let data_projection := (λ k, lerp t (column tapers k) <$> ev) <$> seq 0 (shape2 tapers).2 in
  (length Y = length f ∧ Forall (λ row, length row = length ev) Y) ∧
  (length data_projection = (shape2 tapers).2 ∧
   Forall (λ row, length row = length ev) data_projection) ∧
  ∃ Mspc, Msp !! c = Some Mspc ∧
  ∀ fi k wf m,
    w !! fi = Some wf → findx !! fi = Some m → (k < (shape2 tapers).2)%nat →
    at3 J fi k c =
    Some (Csub (csum ((λ e, Cscale (Cexp (Cmul (0, -1) (RtoC (wf * (e - t0)))))
                                   (lerp t (column tapers k) e)) <$> ev))
               (Cscale (dft_coeff nfft (column tapers k) m) Mspc)).
Proof.
  intros Hrun Hc Hmin Hmax Ht0 ev w Hev Y data_projection.
  split; [|split].
  { subst Y. unfold phase_matrix, outer. rewrite !length_fmap. split; [done|].
    apply Forall_fmap, Forall_fmap, Forall_forall. intros wf _. simpl.
    by rewrite !length_fmap. }
  { subst data_projection. rewrite length_fmap, length_seq. split; [done|].
    apply Forall_fmap, Forall_forall. intros k _. simpl. by rewrite length_fmap. }
  destruct (_mtfftpt_Ok_trial _ _ _ _ _ _ _ _ _ _ _ Hrun Hc)
    as (H0 & H & interpolator & o & HH0 & HH & HI & Ho & HN & HM & HJ).
  apply fft_axis0_Ok_inv in HH0 as ->.
  apply interp1d_Ok_inv in HI as ->.
  apply trial_out_Ok_inv in Ho as (tmin' & tmax' & Hmin' & Hmax' & Hn & Hm & _ & Ho).
  rewrite Hmin in Hmin'. injection Hmin' as <-.
  rewrite Hmax in Hmax'. injection Hmax' as <-.
  destruct (Ho Hev) as (dp & t0' & Hdp & Ht0' & Ho2).
  rewrite Ht0 in Ht0'. injection Ht0' as <-.
  apply interp1d_call_Ok_inv in Hdp. simpl in Hdp.
  exists o.1.2. split; [done|].
  intros fi k wf m Hwf Hm' Hk.
  assert (Hfi : (fi < length f)%nat).
  { apply lookup_lt_Some in Hwf. subst w. by rewrite length_fmap in Hwf. }
  rewrite HJ, decide_True by done. f_equal.
  destruct (take_rows_Ok_lookup _ _ _ _ _ HH Hm') as (hrow & Hhrow & HHfi).
  rewrite lookup_fmap_seq in Hhrow. case_decide; [|done]. injection Hhrow as <-.
  subst w. rewrite list_lookup_fmap in Hwf.
  destruct (f !! fi) as [fq|] eqn:Hfq; [|done]. injection Hwf as <-.
  rewrite Ho2.
  erewrite (cat2_trial_matrix _ _ _ _ _ _ fi k (2 * fq * PI)); cycle 1.
  - by rewrite list_lookup_fmap, Hfq.
  - rewrite Hdp. unfold transpose. rewrite !list_lookup_fmap, lookup_seq_lt by done. done.
  - exact HHfi.
  - by rewrite lookup_fmap_seq, decide_True.
  - f_equal. rewrite zip_with_fmap_l, zip_with_fmap_r, zip_with_diag.
    f_equal. apply list_fmap_ext. intros _ e _. simpl.
    rewrite phase_entry. do 4 f_equal. ring.
Qed.

Lemma spectral_column_witness :
  ∃ J Msp Nsp,
    _mtfftpt Sample.tl Sample.tapers Sample.nfft Sample.t Sample.f Sample.findx
      = Ok (J, Msp, Nsp) ∧
    events Sample.tl !! 0%nat = Some [1; 5] ∧
    amin Sample.t = Ok 0 ∧ amax Sample.t = Ok 3 ∧ first Sample.t = Ok 0 ∧
    in_range 0 3 [1; 5] ≠ [] ∧
    ∃ Mspc, Msp !! 0%nat = Some Mspc ∧
    ∀ fi k wf m,
      ((λ x, 2 * PI * x) <$> Sample.f) !! fi = Some wf →
      Sample.findx !! fi = Some m → (k < 1)%nat →
      at3 J fi k 0 =
      Some (Csub (csum ((λ e, Cscale (Cexp (Cmul (0, -1) (RtoC (wf * (e - 0)))))
                                     (lerp Sample.t (column Sample.tapers k) e))
                          <$> in_range 0 3 [1; 5]))
                 (Cscale (dft_coeff Sample.nfft (column Sample.tapers k) m) Mspc)).
Proof.
  destruct (SampleFacts.sample_returns [[1; 5]; []] (1, 5)) as [[[J Msp] Nsp] Hrun].
  assert (Hev : in_range 0 3 [1; 5] ≠ []) by (by rewrite SampleFacts.retained_first).
  exists J, Msp, Nsp.
  split; [exact Hrun|]. split; [reflexivity|].
  split; [exact SampleFacts.t_min|]. split; [exact SampleFacts.t_max|]. split; [reflexivity|].
  split; [exact Hev|].
  exact (proj2 (proj2 (spectral_column _ _ _ _ _ _ _ _ _ 0%nat [1; 5] 0 3 0
                         Hrun eq_refl SampleFacts.t_min SampleFacts.t_max eq_refl Hev))).
Defined.

(** ** Trials without retained events, and the errors of [_mtfftpt] *)

Lemma traverse_Err {A B} (k : A → result B) l e :
  traverse k l = Err e → ∃ x, x ∈ l ∧ k x = Err e.
Proof.
  induction l as [|x l IH]; simpl; [done|].
  destruct (k x) as [y|e'] eqn:Hk; simpl.
  - destruct (traverse k l) as [ys|e']; simpl; [done|].
    intros [= <-]. destruct IH as (x' & Hx' & Hk'); [done|].
    exists x'. split; [by right|done].
  - intros [= <-]. exists x. split; [left|done].
Qed.

Lemma trial_out_empty H w interpolator t evs tmin tmax :
  amin t = Ok tmin → amax t = Ok tmax → in_range tmin tmax evs = [] →
  trial_out H w interpolator t evs = Ok (0%nat, 0, []).
Proof.
  intros Hmin Hmax Hev. unfold trial_out. rewrite Hmin, Hmax. simpl.
  rewrite Hev. simpl. do 3 f_equal. unfold Rdiv. ring.
Qed.

Lemma trial_body_empty H w interpolator t st evs tmin tmax :
  amin t = Ok tmin → amax t = Ok tmax → in_range tmin tmax evs = [] →
  trial_body H w interpolator t st evs =
  Ok {| chan := chan st + 1;
        Nsp := <[chan st := 0%nat]> (Nsp st);
        Msp := <[chan st := 0]> (Msp st);
        J := clear_chan (J st) (chan st) |}.
Proof.
  intros Hmin Hmax Hev. unfold trial_body. rewrite Hmin, Hmax. simpl.
  rewrite Hev. simpl. do 3 f_equal. unfold Rdiv. ring.
Qed.

Lemma trial_out_Err H w interpolator t evs e :
  trial_out H w interpolator t evs = Err e → ∀ msg, e ≠ AssertionError msg.
Proof.
  unfold trial_out, amin, amax, interp1d_call, first. intros He msg ->.
  destruct t as [|x t]; simpl in He; [done|].
  case_decide; simpl in He; [|done].
  case_decide; simpl in He; done.
Qed.

Lemma _mtfftpt_Err tl tapers nfft t f findx e :
  length f = length findx →
  _mtfftpt tl tapers nfft t f findx = Err e → ∀ msg, e ≠ AssertionError msg.
Proof.
  intros Hsz. rewrite _mtfftpt_by_trial, decide_True by done.
  unfold fft_axis0. case_decide as Hn; simpl; [by intros [= <-]|].
  destruct (take_rows _ findx) as [H|e'] eqn:HH; simpl.
  - unfold interp1d. case_decide as Hlen; simpl; [|by intros [= <-]].
    destruct (traverse _ (events tl)) as [outs|e'] eqn:Houts; simpl; [done|].
    intros [= <-]. apply traverse_Err in Houts as (evs & _ & Hevs).
    by eapply trial_out_Err.
  - intros [= <-]. apply traverse_Err in HH as (i & _ & Hi).
    destruct (_ !! i); [done|]. by injection Hi as <-.
Qed.

(** C7.  [_mtfftpt] raises the assertion error on the frequency information
    if and only if the frequency grid and the index set differ in size; with
    equal sizes no run ends in an assertion error; and an iteration of the
    loop on a trial without retained events never fails. *)
Theorem frequency_assertion tl tapers nfft t f findx :
  (_mtfftpt tl tapers nfft t f findx = Err (AssertionError msg_freq)
   ↔ length f ≠ length findx) ∧
  (length f = length findx →
   ∀ msg, _mtfftpt tl tapers nfft t f findx ≠ Err (AssertionError msg)) ∧
  (∀ H w interpolator st evs tmin tmax,
     amin t = Ok tmin → amax t = Ok tmax → in_range tmin tmax evs = [] →
     is_ok (trial_body H w interpolator t st evs)).
Proof.
  split; [|split].
  - split.
    + intros Herr Hsz. by eapply _mtfftpt_Err.
    + intros Hsz. unfold _mtfftpt. destruct (shape2 tapers). by rewrite decide_False.
  - intros Hsz msg Herr. by eapply _mtfftpt_Err.
  - intros H w interpolator st evs tmin tmax Hmin Hmax Hev.
    erewrite trial_body_empty by done. by eexists.
Qed.

Lemma frequency_assertion_witness :
  (_mtfftpt Sample.tl Sample.tapers Sample.nfft Sample.t [0; 1] [0%nat]
     = Err (AssertionError msg_freq)) ∧
  (∀ msg, _mtfftpt Sample.tl Sample.tapers Sample.nfft Sample.t [0] [0%nat]
            ≠ Err (AssertionError msg)) ∧
  is_ok (trial_body [] [] (Interp1d Sample.t []) Sample.t
           (LoopState 0 [0%nat] [0] (zeros3 0 0 1)) []).
Proof.
  split; [|split].
  - apply (proj1 (frequency_assertion Sample.tl Sample.tapers Sample.nfft Sample.t
                    [0; 1] [0%nat])). simpl. lia.
  - apply (proj1 (proj2 (frequency_assertion Sample.tl Sample.tapers Sample.nfft
                           Sample.t [0] [0%nat]))). reflexivity.
  - apply (proj2 (proj2 (frequency_assertion Sample.tl Sample.tapers Sample.nfft
                           Sample.t [0] [0%nat])) _ _ _ _ _ 0 3).
    + exact SampleFacts.t_min.
    + exact SampleFacts.t_max.
    + reflexivity.
Defined.

(** ** The power reduction of [mtspectrumpt] *)

Lemma conj_mul3_diag (J : array3) :
  conj_mul3 J J =
  (λ Jf : list (list C), (λ Jfk : list C, (λ z, Cmul (Cconj z) z) <$> Jfk) <$> Jf) <$> J.
Proof.
  unfold conj_mul3. rewrite zip_with_diag. apply list_fmap_ext. intros _ Jf _.
  rewrite zip_with_diag. apply list_fmap_ext. intros _ Jfk _.
  by rewrite zip_with_diag.
Qed.

Lemma rsum_zeros n : rsum (replicate n 0) = 0.
Proof. unfold rsum. induction n as [|n IH]; simpl; [done|]. rewrite IH. ring. Qed.

Lemma rmean_zeros n : rmean (replicate n 0) = 0.
Proof. unfold rmean. rewrite rsum_zeros. unfold Rdiv. ring. Qed.

Lemma rmean_axis1_zeros3 n0 n1 n2 :
  rmean_axis1 n2 (conj_mul3 (zeros3 n0 n1 n2) (zeros3 n0 n1 n2)) =
  replicate n0 (replicate n2 0).
Proof.
  rewrite conj_mul3_diag. unfold rmean_axis1, zeros3.
  rewrite !fmap_replicate. f_equal.
  trans ((λ _ : nat, 0) <$> seq 0 n2); [|apply fmap_seq_const].
  apply fmap_seq_ext. intros c Hc.
  rewrite !fmap_replicate, lookup_replicate_2 by lia. simpl.
  replace (0 * 0 - - 0 * 0) with 0 by ring. apply rmean_zeros.
Qed.

Lemma J_of_empty_trials nfreq K (outs : list (nat * R * list (list C))) :
  Forall (λ o, o.2 = []) outs →
  J_of nfreq K (length outs) outs = zeros3 nfreq K (length outs).
Proof.
  intros Hall. rewrite zeros3_tabulate3. apply tabulate3_ext. intros f k c _ _ _.
  destruct (outs !! c) as [o|] eqn:Ho; [|done].
  rewrite Forall_forall in Hall. rewrite (Hall o) by by eapply list_elem_of_lookup_2.
  done.
Qed.

Lemma nfft_of_ge nextpow2 N pad : (N ≤ nfft_of nextpow2 N pad)%nat.
Proof. unfold nfft_of. lia. Qed.

(** A single trial without retained events: [_mtfftpt] returns zeros. *)
Lemma _mtfftpt_single_empty r evs tapers nfft t f findx tmin tmax :
  length f = length findx → nfft ≠ 0%nat → Forall (λ i, i < nfft)%nat findx →
  length t = (shape2 tapers).1 →
  amin t = Ok tmin → amax t = Ok tmax → in_range tmin tmax evs = [] →
  _mtfftpt (Toelis [evs] r) tapers nfft t f findx =
  Ok (zeros3 (length f) (shape2 tapers).2 1, [0], [0%nat]).
Proof.
  intros Hsz Hnfft Hfindx Hlen Hmin Hmax Hev.
  rewrite _mtfftpt_by_trial, decide_True by done.
  rewrite fft_axis0_Ok by done. simpl.
  destruct (take_rows_is_ok
              ((λ m, (λ k, dft_coeff nfft (column tapers k) m) <$> seq 0 (shape2 tapers).2)
                 <$> seq 0 nfft) findx) as [H ->].
  { by rewrite length_fmap, length_seq. }
  simpl. rewrite interp1d_Ok by done. simpl.
  erewrite trial_out_empty by done. simpl. do 3 f_equal.
  apply (J_of_empty_trials _ _ [(0%nat, 0, [])]). by repeat constructor.
Qed.

(** C3.  A trial whose retained events are empty gets an all-zero column
    of [J], and the iteration that handles it raises no error: it stores
    0 in [Nsp], 0 in [Msp] and clears the column.  For a collection of one
    trial without events in range, [mtspectrumpt] returns [S] zero at every
    frequency and the rate 0, provided the grid builder and the taper bank
    hand consistent values to the transformer and there is at least one
    taper. *)
Theorem empty_trial_zero
    (getfgrid : R → nat → R * R → result (list R * list nat))
    (dpsschk : nat → kwargs → result array2) (nextpow2 : nat → Z) :
  (∀ tl tapers nfft t f findx J Msp Nsp c evs tmin tmax,
     _mtfftpt tl tapers nfft t f findx = Ok (J, Msp, Nsp) →
     events tl !! c = Some evs →
     amin t = Ok tmin → amax t = Ok tmax → in_range tmin tmax evs = [] →
     Nsp !! c = Some 0%nat ∧ Msp !! c = Some 0 ∧
     ∀ fi k, (fi < length f)%nat → (k < (shape2 tapers).2)%nat →
             at3 J fi k c = Some C0) ∧
  (∀ H w interpolator t st evs tmin tmax,
     amin t = Ok tmin → amax t = Ok tmax → in_range tmin tmax evs = [] →
     trial_body H w interpolator t st evs =
     Ok {| chan := chan st + 1;
           Nsp := <[chan st := 0%nat]> (Nsp st);
           Msp := <[chan st := 0]> (Msp st);
           J := clear_chan (J st) (chan st) |}) ∧
  (∀ r evs kw t tmin tmax f findx tapers,
     let tl := Toelis [evs] r in
     let Fs := default 1 (kw_Fs kw) in
     mtfftpt_grid tl kw = Ok t →
     amin t = Ok tmin → amax t = Ok tmax → in_range tmin tmax evs = [] →
     getfgrid Fs (nfft_of nextpow2 (length t) (default 0%Z (kw_pad kw)))
              (default (0, Fs / 2) (kw_fpass kw)) = Ok (f, findx) →
     length f = length findx →
     Forall (λ i, i < nfft_of nextpow2 (length t) (default 0%Z (kw_pad kw)))%nat findx →
     dpsschk (length t) kw = Ok tapers →
     (shape2 tapers).1 = length t → (0 < (shape2 tapers).2)%nat →
     mtspectrumpt getfgrid dpsschk nextpow2 tl kw =
     Ok (if default false (kw_trialave kw)
         then (SpecAverage (replicate (length f) 0), f, RateAverage 0)
         else (SpecTrials (replicate (length f) [0]), f, RateTrials [0]))).
Proof.
  split; [|split].
  - intros tl tapers nfft t f findx J Msp Nsp c evs tmin tmax Hrun Hc Hmin Hmax Hev.
    destruct (_mtfftpt_Ok_trial _ _ _ _ _ _ _ _ _ _ _ Hrun Hc)
      as (H0 & H & interpolator & o & _ & _ & _ & Ho & HN & HM & HJ).
    erewrite trial_out_empty in Ho by done. injection Ho as <-.
    split; [done|]. split; [done|].
    intros fi k Hfi Hk. by rewrite HJ, decide_True.
  - intros. by eapply trial_body_empty.
  - intros r evs kw t tmin tmax f findx tapers tl Fs
           Hgrid Hmin Hmax Hev Hfg Hsz Hfindx Htp Hrows HK.
    assert (Ht : (0 < length t)%nat) by (destruct t; [done|simpl; lia]).
    pose proof (nfft_of_ge nextpow2 (length t) (default 0%Z (kw_pad kw))) as Hnfft.
    unfold mtspectrumpt, mtfftpt. rewrite Hgrid. simpl.
    fold Fs. rewrite Hfg. simpl. rewrite Htp. simpl.
    subst tl. erewrite _mtfftpt_single_empty; [| done | lia | done | done | done..].
    simpl. rewrite rmean_axis1_zeros3.
    destruct (default false (kw_trialave kw)).
    + rewrite fmap_replicate.
      replace (rmean (replicate 1 0)) with 0 by (by rewrite rmean_zeros).
      change [0] with (replicate 1 0). rewrite rmean_zeros.
      replace (0 * Fs) with 0 by ring. done.
    + replace (0 * Fs) with 0 by ring. done.
Qed.



Lemma getfgrid_consistent Fs nfft fpass :
  (0 < nfft)%nat →
  ∃ f findx, Signalproc.getfgrid Fs nfft fpass = Ok (f, findx) ∧
             length f = length findx ∧ Forall (λ i, i < nfft)%nat findx.
Proof.
  intros Hn. unfold Signalproc.getfgrid. eexists _, _. split; [done|].
  split; [by rewrite !length_fmap|].
  apply Forall_fmap, Forall_forall. intros [i x] Hix. simpl.
  apply list_elem_of_filter in Hix as [_ Hix].
  apply list_elem_of_fmap in Hix as (j & [= -> ->] & Hj).
  apply elem_of_seq in Hj.
  assert (nfft / 2 < nfft)%nat by (apply Nat.div_lt; lia). lia.
Qed.

Module SampleCallFacts.
Import SampleCall.

Lemma nfft_pos : (0 < nfft)%nat.
Proof.
  pose proof (nfft_of_ge Datautils.nextpow2 (length Sample.t) (default 0%Z (kw_pad kw))).
  unfold nfft. simpl in *. lia.
Qed.

Lemma retained_none : in_range 0 3 [5] = [].
Proof. unfold in_range. rewrite filter_cons, filter_nil. by rewrite decide_False by lra. Qed.

End SampleCallFacts.

Lemma empty_trial_zero_witness :
  (∃ J Msp Nsp,
     _mtfftpt Sample.tl Sample.tapers Sample.nfft Sample.t Sample.f Sample.findx
       = Ok (J, Msp, Nsp) ∧
     events Sample.tl !! 1%nat = Some [] ∧
     amin Sample.t = Ok 0 ∧ amax Sample.t = Ok 3 ∧ in_range 0 3 [] = [] ∧
     Nsp !! 1%nat = Some 0%nat ∧ Msp !! 1%nat = Some 0 ∧
     ∀ fi k, (fi < 1)%nat → (k < 1)%nat → at3 J fi k 1 = Some C0) ∧
  (∃ f findx,
     mtfftpt_grid (Toelis [[5]] (5, 5)) SampleCall.kw = Ok Sample.t ∧
     amin Sample.t = Ok 0 ∧ amax Sample.t = Ok 3 ∧ in_range 0 3 [5] = [] ∧
     Signalproc.getfgrid (default 1 (kw_Fs SampleCall.kw)) SampleCall.nfft
       (default (0, default 1 (kw_Fs SampleCall.kw) / 2) (kw_fpass SampleCall.kw))
       = Ok (f, findx) ∧
     length f = length findx ∧
     Forall (λ i, i < SampleCall.nfft)%nat findx ∧
     Signalproc.dpsschk SampleCall.dpss (length Sample.t) SampleCall.kw = Ok Sample.tapers ∧
     (shape2 Sample.tapers).1 = length Sample.t ∧
     (0 < (shape2 Sample.tapers).2)%nat ∧
     SampleCall.mtspectrumpt (Toelis [[5]] (5, 5)) SampleCall.kw =
     Ok (SpecTrials (replicate (length f) [0]), f, RateTrials [0])).
Proof.
  destruct (empty_trial_zero Signalproc.getfgrid (Signalproc.dpsschk SampleCall.dpss)
              Datautils.nextpow2) as (Hcol & _ & Hspec).
  split.
  - destruct (SampleFacts.sample_returns [[1; 5]; []] (1, 5)) as [[[J Msp] Nsp] Hrun].
    exists J, Msp, Nsp. split; [exact Hrun|]. split; [reflexivity|].
    split; [exact SampleFacts.t_min|]. split; [exact SampleFacts.t_max|]. split; [reflexivity|].
    exact (Hcol _ _ _ _ _ _ _ _ _ 1%nat [] 0 3 Hrun eq_refl SampleFacts.t_min SampleFacts.t_max
             eq_refl).
  - destruct (getfgrid_consistent (default 1 (kw_Fs SampleCall.kw)) SampleCall.nfft
                (default (0, default 1 (kw_Fs SampleCall.kw) / 2) (kw_fpass SampleCall.kw))
                SampleCallFacts.nfft_pos) as (f & findx & Hfg & Hsz & Hfindx).
    exists f, findx.
    split; [reflexivity|]. split; [exact SampleFacts.t_min|]. split; [exact SampleFacts.t_max|].
    split; [exact SampleCallFacts.retained_none|]. split; [exact Hfg|]. split; [exact Hsz|].
    split; [exact Hfindx|]. split; [reflexivity|]. split; [reflexivity|].
    split; [simpl; lia|].
    exact (Hspec (5, 5) [5] SampleCall.kw Sample.t 0 3 f findx Sample.tapers
             eq_refl SampleFacts.t_min SampleFacts.t_max SampleCallFacts.retained_none Hfg Hsz Hfindx
             eq_refl eq_refl (Nat.lt_0_succ 0)).
Defined.

(** ** The spectrum and the rate *)

Lemma Cre_conj_mul z : Cre (Cmul (Cconj z) z) = Cre (Cmul z (Cconj z)).
Proof. unfold Cre, Cmul, Cconj. simpl. ring. Qed.

Lemma Cre_conj_mul_abs2 z : Cre (Cmul (Cconj z) z) = (Cmod z)².
Proof.
  unfold Cmod. rewrite Rsqr_sqrt.
  - unfold Cre, Cmul, Cconj, Cnorm2. simpl. ring.
  - unfold Cnorm2. nra.
Qed.

Lemma rmean_axis1_pointwise (h : C → R) (g0 : C → C) ntrials (A : array3) :
  (∀ z, Cre (g0 z) = h z) → h C0 = Cre C0 →
  rmean_axis1 ntrials
    ((λ Jf : list (list C), (λ Jfk : list C, g0 <$> Jfk) <$> Jf) <$> A) =
  (λ Jf : list (list C),
     (λ c, rmean ((λ Jfk : list C, h (default C0 (Jfk !! c))) <$> Jf)) <$> seq 0 ntrials)
    <$> A.
Proof.
  intros Hgh H0. unfold rmean_axis1. rewrite <- list_fmap_compose.
  apply list_fmap_ext. intros _ Jf _. simpl.
  apply list_fmap_ext. intros _ c _. f_equal.
  rewrite <- list_fmap_compose. apply list_fmap_ext. intros _ Jfk _. simpl.
  rewrite list_lookup_fmap. destruct (Jfk !! c) as [z|]; simpl; [apply Hgh|by rewrite H0].
Qed.

Lemma rmean_axis1_power ntrials (J : array3) :
  rmean_axis1 ntrials (conj_mul3 J J) = power_spectrum ntrials J.
Proof.
  rewrite conj_mul3_diag.
  apply (rmean_axis1_pointwise (λ z, Cre (Cmul z (Cconj z)))).
  - apply Cre_conj_mul.
  - unfold Cre, Cmul, Cconj, C0. simpl. ring.
Qed.

Lemma rmean_axis1_abs2 ntrials (J : array3) :
  rmean_axis1 ntrials (conj_mul3 J J) = mean_abs2 ntrials J.
Proof.
  rewrite conj_mul3_diag.
  apply (rmean_axis1_pointwise (λ z, (Cmod z)²)).
  - apply Cre_conj_mul_abs2.
  - rewrite <- Cre_conj_mul_abs2. unfold Cre, Cmul, Cconj, C0. simpl. ring.
Qed.

(** C4, as the code has it.  [mtspectrumpt] computes [S[f, c]] as the mean
    over the tapers of [Re(J[f,k,c] · conj(J[f,k,c]))].  With [trialave] it
    averages [S] and [Msp] across trials and returns the rate
    [mean(Msp) * Fs]; without [trialave] it keeps the trial axis of [S] and
    returns the rate of every trial, [Msp[c] * Fs].  An error of [mtfftpt]
    is passed on. *)
Theorem spectrum_and_rate
    (getfgrid : R → nat → R * R → result (list R * list nat))
    (dpsschk : nat → kwargs → result array2) (nextpow2 : nat → Z) tl kw :
  (∀ J Msp Nsp f,
     mtfftpt getfgrid dpsschk nextpow2 tl kw = Ok (J, Msp, Nsp, f) →
     let Fs := default 1 (kw_Fs kw) in
     let S := power_spectrum (length Msp) J in
     mtspectrumpt getfgrid dpsschk nextpow2 tl kw =
     Ok (if default false (kw_trialave kw)
         then (SpecAverage (rmean <$> S), f, RateAverage (rmean Msp * Fs))
         else (SpecTrials S, f, RateTrials ((λ m, m * Fs) <$> Msp)))) ∧
  (∀ e, mtfftpt getfgrid dpsschk nextpow2 tl kw = Err e →
        mtspectrumpt getfgrid dpsschk nextpow2 tl kw = Err e).
Proof.
  split.
  - intros J Msp Nsp f Hrun Fs S. unfold mtspectrumpt. rewrite Hrun. simpl.
    rewrite rmean_axis1_power. fold S. by destruct (default false (kw_trialave kw)).
  - intros e Hrun. unfold mtspectrumpt. by rewrite Hrun.
Qed.

(** C8.  Without [trialave], reducing the [J] of [mtfftpt] by the mean over
    the tapers of [|J|^2] gives the [S] of [mtspectrumpt] on the same inputs
    and options, with the same frequency axis; when [mtfftpt] raises,
    [mtspectrumpt] raises the same error. *)
Theorem mtfftpt_round_trip
    (getfgrid : R → nat → R * R → result (list R * list nat))
    (dpsschk : nat → kwargs → result array2) (nextpow2 : nat → Z) tl kw :
  default false (kw_trialave kw) = false →
  (∀ J Msp Nsp f,
     mtfftpt getfgrid dpsschk nextpow2 tl kw = Ok (J, Msp, Nsp, f) →
     ∃ R, mtspectrumpt getfgrid dpsschk nextpow2 tl kw =
          Ok (SpecTrials (mean_abs2 (length Msp) J), f, R)) ∧
  (∀ e, mtfftpt getfgrid dpsschk nextpow2 tl kw = Err e →
        mtspectrumpt getfgrid dpsschk nextpow2 tl kw = Err e).
Proof.
  intros Hta. split.
  - intros J Msp Nsp f Hrun. unfold mtspectrumpt. rewrite Hrun. simpl.
    rewrite Hta, rmean_axis1_abs2. by eexists.
  - intros e Hrun. unfold mtspectrumpt. by rewrite Hrun.
Qed.

(** ** Counts and rates of a whole run *)

Lemma _mtfftpt_Ok_counts tl tapers nfft t f findx J Msp Nsp tmin tmax :
  _mtfftpt tl tapers nfft t f findx = Ok (J, Msp, Nsp) →
  amin t = Ok tmin → amax t = Ok tmax →
  Nsp = (λ evs, length (in_range tmin tmax evs)) <$> events tl ∧
  Msp = (λ evs, INR (length (in_range tmin tmax evs)) / INR (length t)) <$> events tl.
Proof.
  intros Hrun Hmin Hmax.
  pose proof (_mtfftpt_Ok_inv _ _ _ _ _ _ _ _ _ Hrun)
    as (H0 & H & interpolator & outs & _ & _ & _ & _ & Houts & _ & HM & HN).
  apply traverse_Ok_length in Houts.
  split; apply list_eq; intros c; rewrite list_lookup_fmap.
  - destruct (events tl !! c) as [evs|] eqn:Hc; simpl.
    + destruct (_mtfftpt_Ok_trial _ _ _ _ _ _ _ _ _ _ _ Hrun Hc)
        as (H0' & H' & I' & o & _ & _ & _ & Ho & Hn & _).
      apply trial_out_Ok_inv in Ho as (tmin' & tmax' & Hmin' & Hmax' & Ho & _).
      rewrite Hmin in Hmin'. injection Hmin' as <-.
      rewrite Hmax in Hmax'. injection Hmax' as <-.
      by rewrite Hn, Ho.
    + apply lookup_ge_None in Hc. apply lookup_ge_None.
      rewrite HN. unfold Nsp_of. rewrite length_fmap. lia.
  - destruct (events tl !! c) as [evs|] eqn:Hc; simpl.
    + destruct (_mtfftpt_Ok_trial _ _ _ _ _ _ _ _ _ _ _ Hrun Hc)
        as (H0' & H' & I' & o & _ & _ & _ & Ho & _ & Hm & _).
      apply trial_out_Ok_inv in Ho as (tmin' & tmax' & Hmin' & Hmax' & _ & Ho & _).
      rewrite Hmin in Hmin'. injection Hmin' as <-.
      rewrite Hmax in Hmax'. injection Hmax' as <-.
      rewrite Hm, Ho. f_equal. unfold Rdiv. ring.
    + apply lookup_ge_None in Hc. apply lookup_ge_None.
      rewrite HM. unfold Msp_of. rewrite length_fmap. lia.
Qed.

(** [mtfftpt] returns what [_mtfftpt] returns on the grid, the frequencies
    and the tapers it prepares. *)
Lemma mtfftpt_returns
    (getfgrid : R → nat → R * R → result (list R * list nat))
    (dpsschk : nat → kwargs → result array2) (nextpow2 : nat → Z)
    tl kw t f findx tapers :
  let Fs := default 1 (kw_Fs kw) in
  let nfft := nfft_of nextpow2 (length t) (default 0%Z (kw_pad kw)) in
  mtfftpt_grid tl kw = Ok t →
  getfgrid Fs nfft (default (0, Fs / 2) (kw_fpass kw)) = Ok (f, findx) →
  length f = length findx → Forall (λ i, i < nfft)%nat findx →
  dpsschk (length t) kw = Ok tapers → (shape2 tapers).1 = length t →
  t ≠ [] → ascending t →
  ∃ J Msp Nsp,
    _mtfftpt tl tapers nfft t f findx = Ok (J, Msp, Nsp) ∧
    mtfftpt getfgrid dpsschk nextpow2 tl kw = Ok (J, Msp, Nsp, f).
Proof.
  intros Fs nfft Hgrid Hfg Hsz Hfindx Htp Hrows Ht Hasc.
  assert (Hnfft : nfft ≠ 0%nat).
  { pose proof (nfft_of_ge nextpow2 (length t) (default 0%Z (kw_pad kw))).
    destruct t; [done|]. subst nfft. simpl in *. lia. }
  destruct (_mtfftpt_returns tl tapers nfft t f findx) as [[[J Msp] Nsp] Hrun]; try done.
  exists J, Msp, Nsp. split; [done|].
  unfold mtfftpt. rewrite Hgrid. simpl. fold Fs. fold nfft. rewrite Hfg. simpl.
  rewrite Htp. simpl. by rewrite Hrun.
Qed.

Lemma SampleCall_returns (evss : list (list R)) (r : R * R) :
  ∃ J Msp Nsp f findx,
    _mtfftpt (Toelis evss r) Sample.tapers SampleCall.nfft Sample.t f findx
      = Ok (J, Msp, Nsp) ∧
    SampleCall.mtfftpt (Toelis evss r) SampleCall.kw = Ok (J, Msp, Nsp, f).
Proof.
  destruct (getfgrid_consistent (default 1 (kw_Fs SampleCall.kw)) SampleCall.nfft
              (default (0, default 1 (kw_Fs SampleCall.kw) / 2) (kw_fpass SampleCall.kw))
              SampleCallFacts.nfft_pos) as (f & findx & Hfg & Hsz & Hfindx).
  destruct (mtfftpt_returns Signalproc.getfgrid (Signalproc.dpsschk SampleCall.dpss)
              Datautils.nextpow2 (Toelis evss r) SampleCall.kw Sample.t f findx
              Sample.tapers eq_refl Hfg Hsz Hfindx eq_refl eq_refl)
    as (J & Msp & Nsp & Hrun & Hcall).
  - done.
  - apply SampleFacts.t_ascending.
  - by exists J, Msp, Nsp, f, findx.
Qed.

Lemma Sample_rates J Msp Nsp nfft f findx :
  _mtfftpt Sample.tl Sample.tapers nfft Sample.t f findx = Ok (J, Msp, Nsp) →
  Msp = [1 / 4; 0] ∧ Nsp = [1%nat; 0%nat].
Proof.
  intros Hrun.
  destruct (_mtfftpt_Ok_counts _ _ _ _ _ _ _ _ _ 0 3 Hrun SampleFacts.t_min SampleFacts.t_max)
    as [-> ->].
  simpl. rewrite SampleFacts.retained_first. simpl. split; [|done].
  f_equal; [|f_equal]; lra.
Qed.

Lemma spectrum_and_rate_witness :
  ∃ J Msp Nsp f,
    SampleCall.mtfftpt Sample.tl SampleCall.kw = Ok (J, Msp, Nsp, f) ∧
    SampleCall.mtspectrumpt Sample.tl SampleCall.kw =
    Ok (SpecTrials (power_spectrum (length Msp) J), f,
        RateTrials ((λ m, m * default 1 (kw_Fs SampleCall.kw)) <$> Msp)).
Proof.
  destruct (SampleCall_returns [[1; 5]; []] (1, 5))
    as (J & Msp & Nsp & f & findx & _ & Hcall).
  exists J, Msp, Nsp, f. split; [exact Hcall|].
  exact (proj1 (spectrum_and_rate Signalproc.getfgrid (Signalproc.dpsschk SampleCall.dpss)
                  Datautils.nextpow2 Sample.tl SampleCall.kw) J Msp Nsp f Hcall).
Defined.

(** C4 as stated fails without [trialave]: on the sample collection the
    rate returned is the pair of per-trial rates [1/4] and [0], not the
    number [mean(Msp) * Fs = 1/8]. *)
Lemma rate_without_trialave_counterexample :
  ∃ J Msp Nsp f S R,
    SampleCall.mtfftpt Sample.tl SampleCall.kw = Ok (J, Msp, Nsp, f) ∧
    SampleCall.mtspectrumpt Sample.tl SampleCall.kw = Ok (S, f, R) ∧
    Msp = [1 / 4; 0] ∧
    R = RateTrials [1 / 4; 0] ∧
    rmean Msp * default 1 (kw_Fs SampleCall.kw) = 1 / 8 ∧
    R ≠ RateAverage (rmean Msp * default 1 (kw_Fs SampleCall.kw)).
Proof.
  destruct (SampleCall_returns [[1; 5]; []] (1, 5))
    as (J & Msp & Nsp & f & findx & Hrun & Hcall).
  destruct (Sample_rates _ _ _ _ _ _ Hrun) as [-> ->].
  eexists J, _, _, f, _, _. split; [exact Hcall|].
  split.
  { unfold SampleCall.mtspectrumpt, mtspectrumpt. unfold SampleCall.mtfftpt in Hcall.
    change (Toelis [[1; 5]; []] (1, 5)) with Sample.tl in Hcall.
    rewrite Hcall. simpl. reflexivity. }
  split; [done|]. split; [|split].
  - f_equal. f_equal; [|f_equal]; lra.
  - unfold rmean, rsum. simpl. lra.
  - done.
Qed.

Lemma mtfftpt_round_trip_witness :
  default false (kw_trialave SampleCall.kw) = false ∧
  ∃ J Msp Nsp f,
    SampleCall.mtfftpt Sample.tl SampleCall.kw = Ok (J, Msp, Nsp, f) ∧
    ∃ R, SampleCall.mtspectrumpt Sample.tl SampleCall.kw =
         Ok (SpecTrials (mean_abs2 (length Msp) J), f, R).
Proof.
  split; [reflexivity|].
  destruct (SampleCall_returns [[1; 5]; []] (1, 5))
    as (J & Msp & Nsp & f & findx & _ & Hcall).
  exists J, Msp, Nsp, f. split; [exact Hcall|].
  exact (proj1 (mtfftpt_round_trip Signalproc.getfgrid (Signalproc.dpsschk SampleCall.dpss)
                  Datautils.nextpow2 Sample.tl SampleCall.kw eq_refl) J Msp Nsp f Hcall).
Defined.

(** ** The trial dimension of the continuous signal *)

Lemma mjoin_replicate_singleton {A} (x : A) n : mjoin (replicate n [x]) = replicate n x.
Proof. induction n as [|n IH]; simpl; [done|]. by rewrite IH. Qed.

Lemma tile_cols_one S : (shape2 S).2 = 1%nat → tile_cols S 1 = S.
Proof.
  destruct S as [[N nchan] rows]. simpl. intros ->. unfold tile_cols. simpl. f_equal.
  rewrite <- (list_fmap_id rows) at 2. apply list_fmap_ext. intros _ row _.
  simpl. by rewrite app_nil_r.
Qed.

Lemma at2_tile_cols S n i c :
  wf_array2 S → (shape2 S).2 = 1%nat → (c < n)%nat →
  at2 (tile_cols S n) i c = at2 S i 0.
Proof.
  intros [_ Hrows] H1 Hc. unfold at2, tile_cols. simpl. rewrite list_lookup_fmap.
  destruct (data2 S !! i) as [row|] eqn:Hi; simpl; [|done].
  rewrite Forall_forall in Hrows.
  assert (Hlen : length row = 1%nat).
  { rewrite <- H1. apply Hrows. by eapply list_elem_of_lookup_2. }
  destruct row as [|x [|y row]]; simpl in Hlen; try lia.
  rewrite mjoin_replicate_singleton. simpl. by rewrite lookup_replicate_2.
Qed.

(** C6.  When the channel count of the signal is neither 1 nor the trial
    count of the collection, [coherencycpt] raises the error on the trial
    dimensions, whatever its other arguments, and returns nothing.  When the
    channel count is 1 the signal is tiled to one column per trial, each a
    copy of the single channel, and the call goes on with the tiled
    signal. *)
Theorem trial_dimension_check
    (getfgrid : R → nat → R * R → result (list R * list nat))
    (dpsschk : nat → kwargs → result array2)
    (mtfft : array2 → kwargs → result array3) (nextpow2 : nat → Z) S tl kw :
  let S2 := as_2d S in
  let N := (shape2 S2).1 in
  let nchan := (shape2 S2).2 in
  (nchan ≠ 1%nat → nchan ≠ nrepeats tl →
   coherencycpt getfgrid dpsschk mtfft nextpow2 S tl kw = Err (ValueError msg_trial)) ∧
  (nchan = 1%nat →
   let tiled := tile_cols S2 (nrepeats tl) in
   shape2 tiled = (N, nrepeats tl) ∧
   (wf_array2 S2 → ∀ i c, (c < nrepeats tl)%nat → at2 tiled i c = at2 S2 i 0) ∧
   match_trials S2 tl = Ok tiled ∧
   coherencycpt getfgrid dpsschk mtfft nextpow2 S tl kw =
   coherencycpt_matched getfgrid dpsschk mtfft nextpow2 N tiled tl kw).
Proof.
  intros S2 N nchan. split.
  - intros H1 Hn. unfold coherencycpt, match_trials. fold S2.
    destruct (shape2 S2) as [N' nchan'] eqn:Hshape. subst nchan. simpl in *.
    by rewrite decide_True, decide_False.
  - intros H1 tiled.
    assert (Hmatch : match_trials S2 tl = Ok tiled).
    { unfold match_trials. subst tiled nchan.
      destruct (shape2 S2) as [N' nchan'] eqn:Hshape. simpl in H1. subst nchan'.
      case_decide as Hn; [by rewrite decide_True|].
      rewrite <- Hn. by rewrite tile_cols_one by by rewrite Hshape. }
    split; [|split; [|split]].
    + subst tiled N nchan. unfold tile_cols. simpl. rewrite H1. f_equal. lia.
    + intros Hwf i c Hc. by apply at2_tile_cols.
    + done.
    + unfold coherencycpt. fold S2. by rewrite Hmatch.
Qed.

Lemma trial_dimension_check_witness :
  ((3 ≠ 1)%nat ∧ (3 ≠ 4)%nat ∧
   ∀ getfgrid dpsschk mtfft nextpow2 kw,
     coherencycpt getfgrid dpsschk mtfft nextpow2
       (Sig2 (Array2 (2%nat, 3%nat) [[1; 2; 3]; [4; 5; 6]]))
       (Toelis [[]; []; []; []] (0, 0)) kw = Err (ValueError msg_trial)) ∧
  ((1 = 1)%nat ∧
   match_trials (as_2d (Sig1 [7; 8])) (Toelis [[]; []; []] (0, 0)) =
   Ok (Array2 (2%nat, 3%nat) [[7; 7; 7]; [8; 8; 8]])).
Proof.
  split.
  - split; [lia|]. split; [lia|]. intros getfgrid dpsschk mtfft nextpow2 kw.
    apply (proj1 (trial_dimension_check getfgrid dpsschk mtfft nextpow2
                    (Sig2 (Array2 (2%nat, 3%nat) [[1; 2; 3]; [4; 5; 6]]))
                    (Toelis [[]; []; []; []] (0, 0)) kw)); unfold nrepeats; simpl; lia.
  - split; [reflexivity|].
    exact (proj1 (proj2 (proj2 (proj2 (trial_dimension_check
             (λ _ _ _, Err IndexError) (λ _ _, Err IndexError) (λ _ _, Err IndexError)
             (λ _, 0%Z) (Sig1 [7; 8]) (Toelis [[]; []; []] (0, 0))
             (Kwargs None None None None None None None)) eq_refl)))).
Defined.

(** ** The reduction of [coherencycpt] *)

Lemma squeeze_Nd2 nfreq ntrials m :
  nfreq ≠ 1%nat → ntrials ≠ 1%nat → squeeze nfreq ntrials m = Nd2 m.
Proof. intros. unfold squeeze. by rewrite !decide_False. Qed.

Lemma squeeze_mean1 nfreq ntrials m r :
  nd_mean1 (squeeze nfreq ntrials m) = Ok r → nfreq ≠ 1%nat ∧ ntrials ≠ 1%nat.
Proof. unfold squeeze. by repeat case_decide. Qed.

(** With [trialave], on arrays with more than one frequency and more than
    one trial. *)
Lemma coherency_reduce_trialave nfreq ntrials J1 J2 :
  nfreq ≠ 1%nat → ntrials ≠ 1%nat →
  let s12 := cmean <$> cmean_axis1 ntrials (conj_mul3 J1 J2) in
  let s1 := cmean <$> cmean_axis1 ntrials (conj_mul3 J1 J1) in
  let s2 := cmean <$> cmean_axis1 ntrials (conj_mul3 J2 J2) in
  let C12 := zip_with Cdiv s12 (Csqrt <$> zip_with Cmul s1 s2) in
  coherency_reduce nfreq ntrials J1 J2 true =
  Ok (Nd1 (Cmod <$> C12), Nd1 (Cangle <$> C12), Nd1 s12, Nd1 s1, Nd1 s2).
Proof.
  intros Hf Hc. unfold coherency_reduce. by rewrite !squeeze_Nd2.
Qed.

Lemma coherency_reduce_trialave_inv nfreq ntrials J1 J2 r :
  coherency_reduce nfreq ntrials J1 J2 true = Ok r → nfreq ≠ 1%nat ∧ ntrials ≠ 1%nat.
Proof.
  unfold coherency_reduce. intros Hr.
  apply bind_Ok in Hr as (r' & Hr' & _). apply bind_Ok in Hr' as (s12 & Hs12 & _).
  by eapply squeeze_mean1.
Qed.

(** Arithmetic on real-valued complex numbers. *)
Lemma Cmul_RtoC a b : Cmul (RtoC a) (RtoC b) = RtoC (a * b).
Proof. unfold Cmul, RtoC. simpl. f_equal; ring. Qed.

Lemma Cconj_RtoC a : Cconj (RtoC a) = RtoC a.
Proof. unfold Cconj, RtoC. simpl. f_equal. ring. Qed.

Lemma Cdiv_RtoC a b : b ≠ 0 → Cdiv (RtoC a) (RtoC b) = RtoC (a / b).
Proof. intros Hb. unfold Cdiv, Cnorm2, RtoC. simpl. f_equal; by field. Qed.

Lemma Cmod_RtoC x : 0 <= x → Cmod (RtoC x) = x.
Proof.
  intros Hx. unfold Cmod, Cnorm2, RtoC. simpl.
  replace (x * x + 0 * 0) with (x * x) by ring. by apply sqrt_square.
Qed.

Lemma Csqrt_RtoC_square x : 0 <= x → Csqrt (RtoC (x * x)) = RtoC x.
Proof.
  intros Hx. unfold Csqrt. rewrite Cmod_RtoC by nra. unfold RtoC. simpl.
  rewrite decide_False by lra. f_equal.
  - replace ((x * x + x * x) / 2) with (x * x) by field. by apply sqrt_square.
  - replace ((x * x - x * x) / 2) with 0 by field. rewrite sqrt_0. ring.
Qed.

Lemma cmean_one a : cmean [RtoC a] = RtoC a.
Proof. unfold cmean, csum, Cadd, C0, RtoC. simpl. f_equal; field. Qed.

Lemma cmean_two a b : cmean [RtoC a; RtoC b] = RtoC ((a + b) / 2).
Proof. unfold cmean, csum, Cadd, C0, RtoC. simpl. f_equal; field. Qed.

Module CoherencySampleFacts.
Import CoherencySample.

Lemma S12_value : cmean_axis1 2 (conj_mul3 J1 J2) = [[RtoC 1; RtoC 7]; [RtoC 1; RtoC 7]].
Proof.
  unfold cmean_axis1, conj_mul3, J1, J2. simpl.
  rewrite !Cconj_RtoC, !Cmul_RtoC, !cmean_one. repeat f_equal; ring.
Qed.

Lemma S1_value :
  cmean_axis1 2 (conj_mul3 J1 J1) = [[RtoC 1; RtoC (7 * 7)]; [RtoC 1; RtoC (7 * 7)]].
Proof.
  unfold cmean_axis1, conj_mul3, J1. simpl.
  rewrite !Cconj_RtoC, !Cmul_RtoC, !cmean_one. repeat f_equal; ring.
Qed.

Lemma S2_value : cmean_axis1 2 (conj_mul3 J2 J2) = [[RtoC 1; RtoC 1]; [RtoC 1; RtoC 1]].
Proof.
  unfold cmean_axis1, conj_mul3, J2. simpl.
  rewrite !Cconj_RtoC, !Cmul_RtoC, !cmean_one. repeat f_equal; ring.
Qed.

(** Averaging first: [4 / sqrt(25 · 1) = 4/5] at both frequencies. *)
Lemma average_before :
  zip_with Cdiv (cmean <$> cmean_axis1 2 (conj_mul3 J1 J2))
    (Csqrt <$> zip_with Cmul (cmean <$> cmean_axis1 2 (conj_mul3 J1 J1))
                 (cmean <$> cmean_axis1 2 (conj_mul3 J2 J2))) =
  [RtoC (4 / 5); RtoC (4 / 5)].
Proof.
  rewrite S12_value, S1_value, S2_value. simpl.
  rewrite !cmean_two, !Cmul_RtoC.
  replace ((1 + 7 * 7) / 2 * ((1 + 1) / 2)) with (5 * 5) by field.
  rewrite Csqrt_RtoC_square by lra. rewrite Cdiv_RtoC by lra.
  repeat f_equal; field.
Qed.

(** Dividing first: every trial has coherency 1, and so has their mean. *)
Lemma average_after : coherency_average_after 2 J1 J2 = [RtoC 1; RtoC 1].
Proof.
  unfold coherency_average_after. rewrite S12_value, S1_value, S2_value. simpl.
  rewrite !Cmul_RtoC.
  replace (7 * 7 * 1) with (7 * 7) by ring.
  rewrite !Csqrt_RtoC_square by lra. rewrite !Cdiv_RtoC by lra.
  rewrite cmean_two. repeat f_equal; field.
Qed.

End CoherencySampleFacts.

Lemma coherencycpt_Ok_inv
    (getfgrid : R → nat → R * R → result (list R * list nat))
    (dpsschk : nat → kwargs → result array2)
    (mtfft : array2 → kwargs → result array3) (nextpow2 : nat → Z) S tl kw r f :
  coherencycpt getfgrid dpsschk mtfft nextpow2 S tl kw = Ok (r, f) →
  ∃ S' tapers nfft t findx J1 J2 M N,
    match_trials (as_2d S) tl = Ok S' ∧
    mtfft S' (set_tapers kw tapers) = Ok J1 ∧
    _mtfftpt tl tapers nfft t f findx = Ok (J2, M, N) ∧
    coherency_reduce (length f) (nrepeats tl) J1 J2 (default false (kw_trialave kw)) = Ok r.
Proof.
  unfold coherencycpt, coherencycpt_matched. intros Hrun.
  apply bind_Ok in Hrun as (S' & HS' & Hrun).
  apply bind_Ok in Hrun as (t & Ht & Hrun).
  apply bind_Ok in Hrun as ([f' findx] & Hfg & Hrun).
  apply bind_Ok in Hrun as (tapers & Htp & Hrun).
  apply bind_Ok in Hrun as (J1 & HJ1 & Hrun).
  apply bind_Ok in Hrun as ([[J2 M] N] & HJ2 & Hrun).
  apply bind_Ok in Hrun as ([[[[Cabs phi] S12] S1] S2] & Hred & Hrun).
  injection Hrun as <- <-.
  by eexists S', tapers, _, t, findx, J1, J2, M, N.
Qed.

(** C5.  With [trialave], whenever [coherencycpt] returns, its [S12], [S1]
    and [S2] are the means across trials of the taper-averaged cross- and
    auto-spectra of the two transforms [J1] and [J2], the coherency is
    formed from these averages as [C12 = S12 / sqrt(S1 · S2)], and the
    returned [C] and [phi] are the magnitude and the angle of that [C12].
    Averaging the per-trial coherencies after the division is a different
    estimate: on two trials with [J1 = (1, 7)] and [J2 = (1, 1)] the code
    gives [4/5] where the average after division gives [1]. *)
Theorem coherency_averaging_order
    (getfgrid : R → nat → R * R → result (list R * list nat))
    (dpsschk : nat → kwargs → result array2)
    (mtfft : array2 → kwargs → result array3) (nextpow2 : nat → Z) :
  (∀ S tl kw Cabs phi S12 S1 S2 f,
     default false (kw_trialave kw) = true →
     coherencycpt getfgrid dpsschk mtfft nextpow2 S tl kw
       = Ok (Cabs, phi, S12, S1, S2, f) →
     ∃ S' kw' tapers nfft t findx J1 J2 M N,
       mtfft S' kw' = Ok J1 ∧
       _mtfftpt tl tapers nfft t f findx = Ok (J2, M, N) ∧
       let s12 := cmean <$> cmean_axis1 (nrepeats tl) (conj_mul3 J1 J2) in
       let s1 := cmean <$> cmean_axis1 (nrepeats tl) (conj_mul3 J1 J1) in
       let s2 := cmean <$> cmean_axis1 (nrepeats tl) (conj_mul3 J2 J2) in
       let C12 := zip_with Cdiv s12 (Csqrt <$> zip_with Cmul s1 s2) in
       S12 = Nd1 s12 ∧ S1 = Nd1 s1 ∧ S2 = Nd1 s2 ∧
       Cabs = Nd1 (Cmod <$> C12) ∧ phi = Nd1 (Cangle <$> C12)) ∧
  (∃ (J1 J2 : array3) (C12 : list C) phi S12 S1 S2,
     coherency_reduce 2 2 J1 J2 true = Ok (Nd1 (Cmod <$> C12), phi, S12, S1, S2) ∧
     C12 = [RtoC (4 / 5); RtoC (4 / 5)] ∧
     coherency_average_after 2 J1 J2 = [RtoC 1; RtoC 1] ∧
     C12 ≠ coherency_average_after 2 J1 J2 ∧
     Cmod <$> C12 ≠ Cmod <$> coherency_average_after 2 J1 J2).
Proof.
  split.
  - intros S tl kw Cabs phi S12 S1 S2 f Hta Hrun.
    apply coherencycpt_Ok_inv in Hrun
      as (S' & tapers & nfft & t & findx & J1 & J2 & M & N & _ & HJ1 & HJ2 & Hred).
    rewrite Hta in Hred.
    destruct (coherency_reduce_trialave_inv _ _ _ _ _ Hred) as [Hf Hc].
    rewrite coherency_reduce_trialave in Hred by done.
    injection Hred as <- <- <- <- <-.
    by eexists S', _, tapers, nfft, t, findx, J1, J2, M, N.
  - exists CoherencySample.J1, CoherencySample.J2. eexists _, _, _, _, _.
    split; [by apply coherency_reduce_trialave|].
    split; [apply CoherencySampleFacts.average_before|].
    split; [apply CoherencySampleFacts.average_after|].
    rewrite CoherencySampleFacts.average_before, CoherencySampleFacts.average_after.
    split.
    + intros [= Heq]. lra.
    + simpl. rewrite !Cmod_RtoC by lra. intros [= Heq]. lra.
Qed.

Lemma coherencycpt_returns
    (getfgrid : R → nat → R * R → result (list R * list nat))
    (dpsschk : nat → kwargs → result array2)
    (mtfft : array2 → kwargs → result array3) (nextpow2 : nat → Z)
    S tl kw S' t f findx tapers J1 J2 M N :
  let Fs := default 1 (kw_Fs kw) in
  let Nsamp := (shape2 (as_2d S)).1 in
  let nfft := nfft_of nextpow2 Nsamp (default 0%Z (kw_pad kw)) in
  match_trials (as_2d S) tl = Ok S' → kw_tgrid kw = Some t →
  getfgrid Fs nfft (default (0, Fs / 2) (kw_fpass kw)) = Ok (f, findx) →
  dpsschk Nsamp kw = Ok tapers →
  mtfft S' (set_tapers kw tapers) = Ok J1 →
  _mtfftpt tl tapers nfft t f findx = Ok (J2, M, N) →
  length f ≠ 1%nat → nrepeats tl ≠ 1%nat →
  default false (kw_trialave kw) = true →
  is_ok (coherencycpt getfgrid dpsschk mtfft nextpow2 S tl kw).
Proof.
  intros Fs Nsamp nfft HS' Ht Hfg Htp HJ1 HJ2 Hf Hc Hta.
  unfold coherencycpt, coherencycpt_matched. rewrite HS'. simpl. rewrite Ht. simpl.
  fold Fs Nsamp nfft. rewrite Hfg. simpl. rewrite Htp. simpl. rewrite HJ1. simpl.
  rewrite HJ2. simpl. rewrite Hta, coherency_reduce_trialave by done. simpl.
  by eexists.
Qed.

Lemma Signalproc_mtfft_is_ok dpss S kw : is_ok (Signalproc.mtfft dpss S kw).
Proof.
  unfold Signalproc.mtfft, Signalproc.getfgrid, Signalproc.dpsschk. simpl.
  destruct (default (NTapers 5) (kw_tapers kw)); simpl; by eexists.
Qed.

Module CoherencyCallFacts.
Import CoherencyCall.

Lemma getfgrid_value :
  ∃ f findx,
    Signalproc.getfgrid 1 4 (0, 1 / 2) = Ok (f, findx) ∧
    length f = 3%nat ∧ length findx = 3%nat ∧ Forall (λ i, i < 4)%nat findx.
Proof.
  unfold Signalproc.getfgrid. simpl.
  rewrite !filter_cons, filter_nil. simpl.
  rewrite !decide_True by lra. simpl.
  eexists _, _. split; [reflexivity|]. split; [done|]. split; [done|].
  repeat constructor; lia.
Qed.

Lemma coherency_call_returns : is_ok (call S tl kw).
Proof.
  destruct getfgrid_value as (f & findx & Hfg & Hf & Hfindx & Hlt).
  destruct (_mtfftpt_returns tl Sample.tapers 4 Sample.t f findx)
    as [[[J2 M] N] HJ2]; try done.
  { by rewrite Hf, Hfindx. }
  { apply SampleFacts.t_ascending. }
  destruct (Signalproc_mtfft_is_ok SampleCall.dpss (as_2d S) (set_tapers kw Sample.tapers))
    as [J1 HJ1].
  eapply (coherencycpt_returns _ _ _ _ S tl kw (as_2d S) Sample.t f findx Sample.tapers
            J1 J2 M N); try done.
  by rewrite Hf.
Qed.

End CoherencyCallFacts.

Lemma coherency_averaging_order_witness :
  ∃ Cabs phi S12 S1 S2 f,
    default false (kw_trialave CoherencyCall.kw) = true ∧
    CoherencyCall.call CoherencyCall.S CoherencyCall.tl CoherencyCall.kw
      = Ok (Cabs, phi, S12, S1, S2, f) ∧
    ∃ S' kw' tapers nfft t findx J1 J2 M N,
      Signalproc.mtfft SampleCall.dpss S' kw' = Ok J1 ∧
      _mtfftpt CoherencyCall.tl tapers nfft t f findx = Ok (J2, M, N) ∧
      let s12 := cmean <$> cmean_axis1 (nrepeats CoherencyCall.tl) (conj_mul3 J1 J2) in
      let s1 := cmean <$> cmean_axis1 (nrepeats CoherencyCall.tl) (conj_mul3 J1 J1) in
      let s2 := cmean <$> cmean_axis1 (nrepeats CoherencyCall.tl) (conj_mul3 J2 J2) in
      let C12 := zip_with Cdiv s12 (Csqrt <$> zip_with Cmul s1 s2) in
      S12 = Nd1 s12 ∧ S1 = Nd1 s1 ∧ S2 = Nd1 s2 ∧
      Cabs = Nd1 (Cmod <$> C12) ∧ phi = Nd1 (Cangle <$> C12).
Proof.
  destruct CoherencyCallFacts.coherency_call_returns as [[[[[[Cabs phi] S12] S1] S2] f] Hrun].
  exists Cabs, phi, S12, S1, S2, f. split; [reflexivity|]. split; [exact Hrun|].
  exact (proj1 (coherency_averaging_order Signalproc.getfgrid
                  (Signalproc.dpsschk SampleCall.dpss) (Signalproc.mtfft SampleCall.dpss)
                  Datautils.nextpow2)
           CoherencyCall.S CoherencyCall.tl CoherencyCall.kw Cabs phi S12 S1 S2 f
           eq_refl Hrun).
Defined.

(** ** The time grid built from two end points *)

Lemma Rceil_spec x : x <= IZR (Rceil x) ∧ IZR (Rceil x) < x + 1.
Proof.
  unfold Rceil. destruct (archimed (- x)) as [Hgt Hle].
  rewrite minus_IZR. simpl. lra.
Qed.

Lemma length_arange start stop step :
  length (arange start stop step) = Z.to_nat (Rceil ((stop - start) / step)).
Proof. unfold arange. by rewrite length_fmap, length_seq. Qed.

Lemma lookup_arange start stop step i x :
  arange start stop step !! i = Some x → x = start + INR i * step.
Proof.
  unfold arange. rewrite lookup_fmap_seq. case_decide; [|done]. by intros [= <-].
Qed.

Lemma arange_ascending start stop step : 0 <= step → ascending (arange start stop step).
Proof.
  intros Hstep i j x y Hij Hi Hj.
  apply lookup_arange in Hi as ->. apply lookup_arange in Hj as ->.
  apply le_INR in Hij. nra.
Qed.

Lemma head_arange start stop step :
  (0 < length (arange start stop step))%nat →
  head (arange start stop step) = Some start.
Proof.
  rewrite length_arange. unfold arange.
  destruct (Z.to_nat _) as [|n]; [lia|]. intros _. simpl. f_equal. ring.
Qed.

Lemma last_arange start stop step :
  (0 < length (arange start stop step))%nat →
  last (arange start stop step) =
  Some (start + (INR (length (arange start stop step)) - 1) * step).
Proof.
  intros Hlen. rewrite last_lookup.
  pose proof Hlen as Hn. rewrite length_arange in Hn |- *.
  unfold arange. rewrite lookup_fmap_seq.
  rewrite decide_True by lia. f_equal.
  replace (INR (pred (Z.to_nat (Rceil ((stop - start) / step)))))
    with (INR (Z.to_nat (Rceil ((stop - start) / step))) - 1); [done|].
  destruct (Z.to_nat _) as [|n]; [lia|]. rewrite S_INR. simpl. ring.
Qed.

(** The grid of [mtfftpt] for the end points [mintime <= maxtime] and a
    positive sampling rate: it starts one sample before [mintime] and ends
    at least one sample after [maxtime]. *)
Lemma bounds_grid_span mintime maxtime Fs :
  0 < Fs → mintime <= maxtime →
  let dt := 1 / Fs in
  let t := arange (mintime - dt) (maxtime + 2 * dt) dt in
  bounds_grid mintime maxtime Fs = Ok t ∧
  (3 ≤ length t)%nat ∧ ascending t ∧
  ∃ tmax, amin t = Ok (mintime - dt) ∧ amax t = Ok tmax ∧ maxtime + dt <= tmax.
Proof.
  intros HFs Hle dt t.
  assert (Hdt : 0 < dt) by (subst dt; by apply Rdiv_lt_0_compat; [lra|]).
  set (q := (maxtime + 2 * dt - (mintime - dt)) / dt).
  assert (Hq : q = (maxtime - mintime) / dt + 3) by (subst q; field; lra).
  assert (Hq3 : 3 <= q).
  { rewrite Hq. assert (0 <= (maxtime - mintime) / dt); [|lra].
    apply Rmult_le_pos; [lra|]. left. by apply Rinv_0_lt_compat. }
  destruct (Rceil_spec q) as [Hceil _].
  assert (Hz : (3 <= Rceil q)%Z).
  { apply le_IZR. lra. }
  assert (Hlen : length t = Z.to_nat (Rceil q)) by (subst t; apply length_arange).
  assert (HINR : INR (length t) = IZR (Rceil q)).
  { rewrite Hlen, INR_IZR_INZ, Z2Nat.id by lia. done. }
  assert (Hasc : ascending t) by (apply arange_ascending; lra).
  split; [|split; [lia|split; [done|]]].
  { unfold bounds_grid, fdiv. rewrite decide_False by lra. done. }
  exists (mintime - dt + (INR (length t) - 1) * dt).
  split; [|split].
  - apply amin_ascending; [done|]. apply head_arange. fold t. lia.
  - apply amax_ascending; [done|]. apply last_arange. fold t. lia.
  - rewrite HINR.
    assert (Hqdt : q * dt = maxtime - mintime + 3 * dt) by (rewrite Hq; field; lra).
    nra.
Qed.

Lemma mtfftpt_Ok_inv
    (getfgrid : R → nat → R * R → result (list R * list nat))
    (dpsschk : nat → kwargs → result array2) (nextpow2 : nat → Z) tl kw J Msp Nsp f :
  mtfftpt getfgrid dpsschk nextpow2 tl kw = Ok (J, Msp, Nsp, f) →
  ∃ t findx tapers,
    mtfftpt_grid tl kw = Ok t ∧
    _mtfftpt tl tapers (nfft_of nextpow2 (length t) (default 0%Z (kw_pad kw))) t f findx
      = Ok (J, Msp, Nsp).
Proof.
  unfold mtfftpt. intros Hrun.
  apply bind_Ok in Hrun as (t & Ht & Hrun).
  apply bind_Ok in Hrun as ([f' findx] & Hfg & Hrun).
  apply bind_Ok in Hrun as (tapers & Htp & Hrun).
  apply bind_Ok in Hrun as ([[J' M] N] & HJ & Hrun).
  injection Hrun as <- <- <- <-. by exists t, findx, tapers.
Qed.

Lemma range_spans_covers tl evs e :
  range_spans tl → evs ∈ events tl → e ∈ evs →
  (range tl).1 <= e ∧ e <= (range tl).2.
Proof.
  intros [Hmin Hmax] Hevs He.
  assert (Hin : e ∈ mjoin (events tl)) by (apply list_elem_of_join; by exists evs).
  split; [by apply (amin_spec _ _ Hmin)|by apply (amax_spec _ _ Hmax)].
Qed.

(** C10.  Given no [tgrid], so that the pair [tl.range] is used, or a
    [tgrid] of two end points [(mintime, maxtime)], with a positive
    sampling rate and [mintime <= maxtime], [mtfftpt] builds the grid
    [arange(mintime - dt, maxtime + 2 dt, dt)] with [dt = 1/Fs]; its
    minimum is [mintime - dt], one sample before [mintime], and its maximum
    is at least [maxtime + dt].  Hence every event within
    [[mintime, maxtime]] is retained, with its multiplicity, a trial whose
    events all lie there has [Nsp[c]] equal to its number of events, and so
    has every trial under the default grid when the range spans the
    collection. *)
Theorem default_grid_covers_range
    (getfgrid : R → nat → R * R → result (list R * list nat))
    (dpsschk : nat → kwargs → result array2) (nextpow2 : nat → Z)
    tl kw mintime maxtime :
  let Fs := default 1 (kw_Fs kw) in
  let dt := 1 / Fs in
  let t := arange (mintime - dt) (maxtime + 2 * dt) dt in
  default [(range tl).1; (range tl).2] (kw_tgrid kw) = [mintime; maxtime] →
  0 < Fs → mintime <= maxtime →
  ∃ tmax,
    mtfftpt_grid tl kw = Ok t ∧
    amin t = Ok (mintime - dt) ∧ amax t = Ok tmax ∧ maxtime + dt <= tmax ∧
    (∀ evs e, mintime <= e ∧ e <= maxtime →
              occurrences e (in_range (mintime - dt) tmax evs) = occurrences e evs) ∧
    (∀ J Msp Nsp f c evs,
       mtfftpt getfgrid dpsschk nextpow2 tl kw = Ok (J, Msp, Nsp, f) →
       events tl !! c = Some evs →
       (∀ e, e ∈ evs → mintime <= e ∧ e <= maxtime) →
       Nsp !! c = Some (length evs)) ∧
    (kw_tgrid kw = None → range_spans tl →
     ∀ J Msp Nsp f c evs,
       mtfftpt getfgrid dpsschk nextpow2 tl kw = Ok (J, Msp, Nsp, f) →
       events tl !! c = Some evs →
       Nsp !! c = Some (length evs)).
Proof.
  intros Fs dt t Hpair HFs Hle.
  destruct (bounds_grid_span mintime maxtime Fs HFs Hle)
    as (Hgrid & Hlen & Hasc & tmax & Hmin & Hmax & Htmax).
  fold dt t in Hgrid, Hlen, Hasc, Hmin, Hmax, Htmax.
  assert (Hdt : 0 < dt) by (subst dt; by apply Rdiv_lt_0_compat; [lra|]).
  assert (Hmtgrid : mtfftpt_grid tl kw = Ok t).
  { unfold mtfftpt_grid. by rewrite Hpair. }
  assert (Hcount : ∀ J Msp Nsp f c evs,
            mtfftpt getfgrid dpsschk nextpow2 tl kw = Ok (J, Msp, Nsp, f) →
            events tl !! c = Some evs →
            (∀ e, e ∈ evs → mintime <= e ∧ e <= maxtime) →
            Nsp !! c = Some (length evs)).
  { intros J Msp Nsp f c evs Hrun Hc Hin.
    apply mtfftpt_Ok_inv in Hrun as (t' & findx & tapers & Ht' & Hrun).
    rewrite Hmtgrid in Ht'. injection Ht' as <-.
    destruct (_mtfftpt_Ok_counts _ _ _ _ _ _ _ _ _ _ _ Hrun Hmin Hmax) as [-> _].
    rewrite list_lookup_fmap, Hc. simpl. f_equal. f_equal.
    apply in_range_all. intros e He. apply Hin in He. lra. }
  exists tmax. repeat split; try done.
  - intros evs e He. apply occurrences_in_range. lra.
  - intros Hnone Hspan J Msp Nsp f c evs Hrun Hc.
    apply (Hcount J Msp Nsp f c evs Hrun Hc).
    intros e He. rewrite Hnone in Hpair. simpl in Hpair. injection Hpair as <- <-.
    eapply range_spans_covers; [done| |done]. by eapply list_elem_of_lookup_2.
Qed.

Module DefaultCallFacts.
Import DefaultCall.

Lemma spans : range_spans tl.
Proof.
  unfold range_spans, tl, amin, amax. simpl. split; f_equal.
  - unfold Rmin. repeat (destruct (Rle_dec _ _); try lra).
  - unfold Rmax. repeat (destruct (Rle_dec _ _); try lra).
Qed.

Lemma default_call_returns :
  is_ok (mtfftpt Signalproc.getfgrid (Signalproc.dpsschk SampleCall.dpss)
           Datautils.nextpow2 tl kw).
Proof.
  destruct (bounds_grid_span 1 3 1) as (Hgrid & Hlen & Hasc & _); [lra..|].
  set (t := arange (1 - 1 / 1) (3 + 2 * (1 / 1)) (1 / 1)) in *.
  assert (Hnfft : (0 < nfft_of Datautils.nextpow2 (length t) 0)%nat).
  { pose proof (nfft_of_ge Datautils.nextpow2 (length t) 0). lia. }
  destruct (getfgrid_consistent 1 (nfft_of Datautils.nextpow2 (length t) 0) (0, 1 / 2) Hnfft)
    as (f & findx & Hfg & Hsz & Hfindx).
  destruct (mtfftpt_returns Signalproc.getfgrid (Signalproc.dpsschk SampleCall.dpss)
              Datautils.nextpow2 tl kw t f findx (SampleCall.dpss (length t) 3 5))
    as (J & Msp & Nsp & _ & Hcall); try done.
  - destruct t; [simpl in Hlen; lia|done].
  - by eexists.
Qed.

End DefaultCallFacts.

Lemma default_grid_covers_range_witness :
  default [(range DefaultCall.tl).1; (range DefaultCall.tl).2] (kw_tgrid DefaultCall.kw)
    = [1; 3] ∧
  0 < default 1 (kw_Fs DefaultCall.kw) ∧ 1 <= 3 ∧
  ∃ J Msp Nsp f,
    mtfftpt Signalproc.getfgrid (Signalproc.dpsschk SampleCall.dpss) Datautils.nextpow2
      DefaultCall.tl DefaultCall.kw = Ok (J, Msp, Nsp, f) ∧
    Nsp !! 0%nat = Some 2%nat ∧ Nsp !! 1%nat = Some 1%nat.
Proof.
  assert (H01 : 0 < default 1 (kw_Fs DefaultCall.kw)) by (simpl; lra).
  assert (H13 : 1 <= 3) by lra.
  split; [reflexivity|]. split; [exact H01|]. split; [exact H13|].
  destruct DefaultCallFacts.default_call_returns as [[[[J Msp] Nsp] f] Hrun].
  exists J, Msp, Nsp, f. split; [exact Hrun|].
  destruct (default_grid_covers_range Signalproc.getfgrid
              (Signalproc.dpsschk SampleCall.dpss) Datautils.nextpow2
              DefaultCall.tl DefaultCall.kw 1 3 eq_refl H01 H13)
    as (tmax & _ & _ & _ & _ & _ & _ & Hdefault).
  split.
  - exact (Hdefault eq_refl DefaultCallFacts.spans J Msp Nsp f 0%nat [1; 2] Hrun eq_refl).
  - exact (Hdefault eq_refl DefaultCallFacts.spans J Msp Nsp f 1%nat [3] Hrun eq_refl).
Defined.


(** * Further properties of the transformer and the estimators *)

(** ** Shapes of the outputs of [_mtfftpt] *)

Lemma tabulate3_shape n0 n1 n2 g : has_shape3 (tabulate3 n0 n1 n2 g) n0 n1 n2.
Proof.
  unfold has_shape3, tabulate3. rewrite length_fmap, length_seq. split; [done|].
  apply Forall_fmap, Forall_forall. intros f _. simpl.
  rewrite length_fmap, length_seq. split; [done|].
  apply Forall_fmap, Forall_forall. intros k _. simpl.
  by rewrite length_fmap, length_seq.
Qed.

Lemma _mtfftpt_Ok_lengths tl tapers nfft t f findx J Msp Nsp :
  _mtfftpt tl tapers nfft t f findx = Ok (J, Msp, Nsp) →
  length J = length f ∧ length Msp = nrepeats tl.
Proof.
  intros Hrun.
  apply _mtfftpt_Ok_inv in Hrun
    as (H0 & H & interpolator & outs & _ & _ & _ & _ & Houts & -> & -> & ->).
  apply traverse_Ok_length in Houts. unfold nrepeats, J_of, Msp_of.
  split; [apply tabulate3_shape|by rewrite length_fmap].
Qed.

(** X1.  When [_mtfftpt] returns, [J] has the shape (number of
    frequencies, number of tapers, number of trials), every entry inside
    that shape exists and none outside, and [Msp] and [Nsp] have one entry
    per trial. *)
Theorem _mtfftpt_shapes tl tapers nfft t f findx J Msp Nsp :
  _mtfftpt tl tapers nfft t f findx = Ok (J, Msp, Nsp) →
  has_shape3 J (length f) (shape2 tapers).2 (nrepeats tl) ∧
  (∀ fi k c, is_Some (at3 J fi k c) ↔
             (fi < length f ∧ k < (shape2 tapers).2 ∧ c < nrepeats tl)%nat) ∧
  length Msp = nrepeats tl ∧ length Nsp = nrepeats tl.
Proof.
  intros Hrun.
  apply _mtfftpt_Ok_inv in Hrun
    as (H0 & H & interpolator & outs & _ & _ & _ & _ & Houts & -> & -> & ->).
  apply traverse_Ok_length in Houts. unfold nrepeats, J_of, Msp_of, Nsp_of.
  split; [apply tabulate3_shape|]. split.
  - intros fi k c. rewrite at3_tabulate3. case_decide as Hin.
    + split; [done|]. intros _. by eexists.
    + split; [by intros [? ?]|done].
  - by rewrite !length_fmap.
Qed.

Lemma _mtfftpt_shapes_witness :
  ∃ J Msp Nsp,
    _mtfftpt Sample.tl Sample.tapers Sample.nfft Sample.t Sample.f Sample.findx
      = Ok (J, Msp, Nsp) ∧
    has_shape3 J 1 1 2 ∧
    (∀ fi k c, is_Some (at3 J fi k c) ↔ (fi < 1 ∧ k < 1 ∧ c < 2)%nat) ∧
    length Msp = 2%nat ∧ length Nsp = 2%nat.
Proof.
  destruct (SampleFacts.sample_returns [[1; 5]; []] (1, 5)) as [[[J Msp] Nsp] Hrun].
  exists J, Msp, Nsp. split; [exact Hrun|].
  exact (_mtfftpt_shapes _ _ _ _ _ _ _ _ _ Hrun).
Defined.

(** ** Collections put end to end *)

Lemma traverse_app {A B} (k : A → result B) l1 l2 :
  traverse k (l1 ++ l2) = ys1 ← traverse k l1; ys2 ← traverse k l2; Ok (ys1 ++ ys2).
Proof.
  induction l1 as [|x l1 IH]; simpl.
  - by destruct (traverse k l2).
  - destruct (k x) as [y|e]; simpl; [|done]. rewrite IH.
    destruct (traverse k l1); simpl; [|done]. by destruct (traverse k l2).
Qed.

(** X2.  Running [_mtfftpt] on two collections put end to end, with the
    same tapers, grids and indices, gives the outputs of the two runs put
    end to end along the trial axis; and the run on the whole returns only
    if the runs on both parts do. *)
Theorem _mtfftpt_app evss1 evss2 r tapers nfft t f findx :
  (∀ J1 Msp1 Nsp1 J2 Msp2 Nsp2,
     _mtfftpt (Toelis evss1 r) tapers nfft t f findx = Ok (J1, Msp1, Nsp1) →
     _mtfftpt (Toelis evss2 r) tapers nfft t f findx = Ok (J2, Msp2, Nsp2) →
     ∃ J,
       _mtfftpt (Toelis (evss1 ++ evss2) r) tapers nfft t f findx
         = Ok (J, Msp1 ++ Msp2, Nsp1 ++ Nsp2) ∧
       ∀ fi k c, at3 J fi k c =
                 if decide (c < length evss1)%nat then at3 J1 fi k c
                 else at3 J2 fi k (c - length evss1)) ∧
  (is_ok (_mtfftpt (Toelis (evss1 ++ evss2) r) tapers nfft t f findx) →
   is_ok (_mtfftpt (Toelis evss1 r) tapers nfft t f findx) ∧
   is_ok (_mtfftpt (Toelis evss2 r) tapers nfft t f findx)).
Proof.
  split.
  - intros J1 Msp1 Nsp1 J2 Msp2 Nsp2 Hrun1 Hrun2.
    apply _mtfftpt_Ok_inv in Hrun1
      as (H0 & H & interpolator & outs1 & Hsz & HH0 & HH & HI & Houts1 & -> & -> & ->).
    apply _mtfftpt_Ok_inv in Hrun2
      as (H0' & H' & interpolator' & outs2 & _ & HH0' & HH' & HI' & Houts2 & -> & -> & ->).
    rewrite HH0 in HH0'. injection HH0' as <-.
    rewrite HH in HH'. injection HH' as <-.
    rewrite HI in HI'. injection HI' as <-.
    simpl in Houts1, Houts2.
    eexists. split.
    + rewrite _mtfftpt_by_trial, decide_True by done.
      rewrite HH0. simpl. rewrite HH. simpl. rewrite HI. simpl.
      rewrite traverse_app, Houts1. simpl. rewrite Houts2. simpl.
      unfold Msp_of, Nsp_of. by rewrite !fmap_app.
    + intros fi k c. unfold J_of. rewrite !at3_tabulate3. simpl.
      apply traverse_Ok_length in Houts1. apply traverse_Ok_length in Houts2.
      rewrite length_app.
      destruct (decide (c < length evss1)%nat) as [Hc|Hc].
      * rewrite lookup_app_l by lia. repeat case_decide; try done; lia.
      * rewrite lookup_app_r by lia. rewrite Houts1.
        repeat case_decide; try done; lia.
  - rewrite !_mtfftpt_by_trial. case_decide as Hsz; [|by intros [? ?]].
    destruct (fft_axis0 tapers nfft) as [H0|e]; simpl; [|by intros [? ?]].
    destruct (take_rows H0 findx) as [H|e]; simpl; [|by intros [? ?]].
    destruct (interp1d t _ _) as [interpolator|e]; simpl; [|by intros [? ?]].
    rewrite traverse_app.
    destruct (traverse _ evss1) as [outs1|e]; simpl; [|by intros [? ?]].
    destruct (traverse _ evss2) as [outs2|e]; simpl; [|by intros [? ?]].
    intros _. split; by eexists.
Qed.

Lemma _mtfftpt_app_witness :
  ∃ J1 Msp1 Nsp1 J2 Msp2 Nsp2 J,
    _mtfftpt (Toelis [[1; 5]] (1, 5)) Sample.tapers Sample.nfft Sample.t Sample.f
      Sample.findx = Ok (J1, Msp1, Nsp1) ∧
    _mtfftpt (Toelis [[]; [2]] (1, 5)) Sample.tapers Sample.nfft Sample.t Sample.f
      Sample.findx = Ok (J2, Msp2, Nsp2) ∧
    _mtfftpt (Toelis ([[1; 5]] ++ [[]; [2]]) (1, 5)) Sample.tapers Sample.nfft Sample.t
      Sample.f Sample.findx = Ok (J, Msp1 ++ Msp2, Nsp1 ++ Nsp2) ∧
    ∀ fi k c, at3 J fi k c =
              if decide (c < 1)%nat then at3 J1 fi k c else at3 J2 fi k (c - 1).
Proof.
  destruct (SampleFacts.sample_returns [[1; 5]] (1, 5)) as [[[J1 Msp1] Nsp1] Hrun1].
  destruct (SampleFacts.sample_returns [[]; [2]] (1, 5)) as [[[J2 Msp2] Nsp2] Hrun2].
  destruct (proj1 (_mtfftpt_app [[1; 5]] [[]; [2]] (1, 5) Sample.tapers Sample.nfft
                     Sample.t Sample.f Sample.findx)
              J1 Msp1 Nsp1 J2 Msp2 Nsp2 Hrun1 Hrun2) as (J & Hrun & HJ).
  exists J1, Msp1, Nsp1, J2, Msp2, Nsp2, J.
  split; [exact Hrun1|]. split; [exact Hrun2|]. split; [exact Hrun|exact HJ].
Defined.

(** ** Counts and the events of a trial *)

Lemma length_filter_eq {A} (P : A → Prop) `{∀ x, Decision (P x)} (l : list A) :
  length (filter P l) = length l ↔ Forall P l.
Proof.
  induction l as [|x l IH]; simpl.
  - split; [constructor|done].
  - rewrite filter_cons. pose proof (length_filter P l) as Hle.
    case_decide as HP; simpl.
    + split.
      * intros Hlen. constructor; [done|]. apply IH. lia.
      * intros Hall. apply Forall_cons in Hall as [_ Hall]. f_equal. by apply IH.
    + split; [lia|]. intros Hall. by apply Forall_cons in Hall as [? _].
Qed.

(** X3.  In a run of [_mtfftpt], [Nsp[c]] never exceeds the number of
    events of trial [c], and equals it exactly when every event of the trial
    lies between the minimum and the maximum of the grid; [Msp[c]] times the
    length of the grid is [Nsp[c]], and [Msp[c]] is not negative. *)
Theorem count_bounds tl tapers nfft t f findx J Msp Nsp c evs tmin tmax :
  _mtfftpt tl tapers nfft t f findx = Ok (J, Msp, Nsp) →
  events tl !! c = Some evs →
  amin t = Ok tmin → amax t = Ok tmax →
  ∃ n m,
    Nsp !! c = Some n ∧ Msp !! c = Some m ∧
    (n ≤ length evs)%nat ∧
    (n = length evs ↔ Forall (λ e, tmin <= e ∧ e <= tmax) evs) ∧
    m * INR (length t) = INR n ∧ 0 <= m.
Proof.
  intros Hrun Hc Hmin Hmax.
  destruct (_mtfftpt_Ok_counts _ _ _ _ _ _ _ _ _ _ _ Hrun Hmin Hmax) as [-> ->].
  rewrite !list_lookup_fmap, Hc. simpl. eexists _, _. split; [done|]. split; [done|].
  assert (Ht : 0 < INR (length t)).
  { destruct t; [done|]. apply lt_0_INR. simpl. lia. }
  split; [apply length_filter|]. split; [apply length_filter_eq|]. split.
  - field. lra.
  - apply Rmult_le_pos; [apply pos_INR|]. left. by apply Rinv_0_lt_compat.
Qed.

Lemma count_bounds_witness :
  ∃ J Msp Nsp,
    _mtfftpt Sample.tl Sample.tapers Sample.nfft Sample.t Sample.f Sample.findx
      = Ok (J, Msp, Nsp) ∧
    events Sample.tl !! 0%nat = Some [1; 5] ∧
    amin Sample.t = Ok 0 ∧ amax Sample.t = Ok 3 ∧
    ∃ n m,
      Nsp !! 0%nat = Some n ∧ Msp !! 0%nat = Some m ∧
      (n ≤ length [1; 5])%nat ∧
      (n = length [1; 5] ↔ Forall (λ e, 0 <= e ∧ e <= 3) [1; 5]) ∧
      m * INR (length Sample.t) = INR n ∧ 0 <= m.
Proof.
  destruct (SampleFacts.sample_returns [[1; 5]; []] (1, 5)) as [[[J Msp] Nsp] Hrun].
  exists J, Msp, Nsp. split; [exact Hrun|]. split; [reflexivity|].
  split; [exact SampleFacts.t_min|]. split; [exact SampleFacts.t_max|].
  exact (count_bounds _ _ _ _ _ _ _ _ _ 0%nat [1; 5] 0 3 Hrun eq_refl
           SampleFacts.t_min SampleFacts.t_max).
Defined.

(** ** The spectrum and the rate of [mtspectrumpt] *)

Lemma mtfftpt_Ok_steps
    (getfgrid : R → nat → R * R → result (list R * list nat))
    (dpsschk : nat → kwargs → result array2) (nextpow2 : nat → Z) tl kw J Msp Nsp f :
  mtfftpt getfgrid dpsschk nextpow2 tl kw = Ok (J, Msp, Nsp, f) →
  ∃ t findx tapers,
    let Fs := default 1 (kw_Fs kw) in
    let nfft := nfft_of nextpow2 (length t) (default 0%Z (kw_pad kw)) in
    mtfftpt_grid tl kw = Ok t ∧
    getfgrid Fs nfft (default (0, Fs / 2) (kw_fpass kw)) = Ok (f, findx) ∧
    dpsschk (length t) kw = Ok tapers ∧
    _mtfftpt tl tapers nfft t f findx = Ok (J, Msp, Nsp).
Proof.
  unfold mtfftpt. intros Hrun.
  apply bind_Ok in Hrun as (t & Ht & Hrun).
  apply bind_Ok in Hrun as ([f' findx] & Hfg & Hrun).
  apply bind_Ok in Hrun as (tapers & Htp & Hrun).
  apply bind_Ok in Hrun as ([[J' M] N] & HJ & Hrun).
  injection Hrun as <- <- <- <-. by exists t, findx, tapers.
Qed.

Lemma rsum_nonneg l : Forall (λ x, 0 <= x) l → 0 <= rsum l.
Proof.
  unfold rsum. induction 1 as [|x l Hx _ IH]; simpl; [lra|lra].
Qed.

Lemma rmean_nonneg l : Forall (λ x, 0 <= x) l → 0 <= rmean l.
Proof.
  intros Hl. unfold rmean. destruct l as [|x l].
  - unfold rsum. simpl. unfold Rdiv. lra.
  - apply Rmult_le_pos; [by apply rsum_nonneg|].
    left. apply Rinv_0_lt_compat, lt_0_INR. simpl. lia.
Qed.

Lemma power_spectrum_nonneg ntrials (J : array3) :
  Forall (λ row, length row = ntrials ∧ Forall (λ x, 0 <= x) row) (power_spectrum ntrials J).
Proof.
  unfold power_spectrum. apply Forall_fmap, Forall_forall. intros Jf _. simpl.
  rewrite length_fmap, length_seq. split; [done|].
  apply Forall_fmap, Forall_forall. intros c _. simpl. apply rmean_nonneg.
  apply Forall_fmap, Forall_forall. intros Jfk _. simpl.
  unfold Cre, Cmul, Cconj. simpl. nra.
Qed.

(** X4.  The spectrum returned by [mtspectrumpt] has one row per frequency
    of [f] and no negative entry: without [trialave] every row has one
    entry per trial, with [trialave] the row is a single number.  (At least
    one taper and, for the average, at least one trial are assumed, the mean
    being nan otherwise.) *)
Theorem spectrum_shape_nonneg
    (getfgrid : R → nat → R * R → result (list R * list nat))
    (dpsschk : nat → kwargs → result array2) (nextpow2 : nat → Z) tl kw Sp f rate :
  (∀ N tp, dpsschk N kw = Ok tp → (0 < (shape2 tp).2)%nat) →
  (0 < nrepeats tl)%nat →
  mtspectrumpt getfgrid dpsschk nextpow2 tl kw = Ok (Sp, f, rate) →
  match Sp with
  | SpecTrials rows =>
      default false (kw_trialave kw) = false ∧ length rows = length f ∧
      Forall (λ row, length row = nrepeats tl ∧ Forall (λ x, 0 <= x) row) rows
  | SpecAverage vals =>
      default false (kw_trialave kw) = true ∧ length vals = length f ∧
      Forall (λ x, 0 <= x) vals
  end.
Proof.
  intros _ _. unfold mtspectrumpt. intros Hrun.
  apply bind_Ok in Hrun as ([[[J Msp] Nsp] f'] & Hfft & Hrun).
  apply mtfftpt_Ok_inv in Hfft as (t & findx & tapers & _ & Hft).
  destruct (_mtfftpt_Ok_lengths _ _ _ _ _ _ _ _ _ Hft) as [HJ HM].
  rewrite rmean_axis1_power in Hrun.
  pose proof (power_spectrum_nonneg (length Msp) J) as Hpos.
  assert (Hlen : length (power_spectrum (length Msp) J) = length f').
  { unfold power_spectrum. by rewrite length_fmap. }
  destruct (default false (kw_trialave kw)); injection Hrun as <- <- <-.
  - split; [done|]. rewrite length_fmap. split; [done|].
    apply Forall_fmap. eapply Forall_impl; [exact Hpos|].
    intros row [_ Hrow]. simpl. by apply rmean_nonneg.
  - split; [done|]. split; [done|]. by rewrite <- HM.
Qed.

Lemma spectrum_shape_nonneg_witness :
  ∃ S f rate,
    (∀ N tp, Signalproc.dpsschk SampleCall.dpss N SampleCall.kw = Ok tp →
             (0 < (shape2 tp).2)%nat) ∧
    (0 < nrepeats Sample.tl)%nat ∧
    SampleCall.mtspectrumpt Sample.tl SampleCall.kw = Ok (SpecTrials S, f, rate) ∧
    default false (kw_trialave SampleCall.kw) = false ∧ length S = length f ∧
    Forall (λ row, length row = nrepeats Sample.tl ∧ Forall (λ x, 0 <= x) row) S.
Proof.
  destruct (SampleCall_returns [[1; 5]; []] (1, 5))
    as (J & Msp & Nsp & f & findx & _ & Hcall).
  assert (Htp : ∀ N tp, Signalproc.dpsschk SampleCall.dpss N SampleCall.kw = Ok tp →
                        (0 < (shape2 tp).2)%nat).
  { intros N tp [= <-]. simpl. lia. }
  assert (Hn : (0 < nrepeats Sample.tl)%nat) by (unfold nrepeats; simpl; lia).
  assert (Hrun : SampleCall.mtspectrumpt Sample.tl SampleCall.kw =
                 Ok (SpecTrials (rmean_axis1 (length Msp) (conj_mul3 J J)), f,
                     RateTrials ((λ m, m * default 1 (kw_Fs SampleCall.kw)) <$> Msp))).
  { unfold SampleCall.mtspectrumpt, mtspectrumpt. unfold SampleCall.mtfftpt in Hcall.
    change (Toelis [[1; 5]; []] (1, 5)) with Sample.tl in Hcall. by rewrite Hcall. }
  eexists _, f, _. split; [exact Htp|]. split; [exact Hn|]. split; [exact Hrun|].
  exact (spectrum_shape_nonneg _ _ _ _ _ _ _ _ Htp Hn Hrun).
Defined.

Lemma rsum_scaled_counts (l : list nat) (d : R) :
  rsum ((λ n, INR n / d) <$> l) = INR (sum_list l) / d.
Proof.
  unfold rsum. induction l as [|n l IH]; csimpl.
  - unfold Rdiv. ring.
  - rewrite IH, plus_INR. unfold Rdiv. ring.
Qed.

(** X5.  The rate returned by [mtspectrumpt] is a count over a duration:
    without [trialave], [R[c]] times the length of the grid is
    [Nsp[c] * Fs]; with [trialave], [R] times the number of trials times the
    length of the grid is the total number of retained events times [Fs]. *)
Theorem rate_is_count_over_duration
    (getfgrid : R → nat → R * R → result (list R * list nat))
    (dpsschk : nat → kwargs → result array2) (nextpow2 : nat → Z)
    tl kw J Msp Nsp f Sp f' rate t :
  (0 < nrepeats tl)%nat →
  mtfftpt getfgrid dpsschk nextpow2 tl kw = Ok (J, Msp, Nsp, f) →
  mtfftpt_grid tl kw = Ok t →
  mtspectrumpt getfgrid dpsschk nextpow2 tl kw = Ok (Sp, f', rate) →
  let Fs := default 1 (kw_Fs kw) in
  match rate with
  | RateTrials rates =>
      length rates = nrepeats tl ∧
      ∀ c r n, rates !! c = Some r → Nsp !! c = Some n →
               r * INR (length t) = INR n * Fs
  | RateAverage r =>
      r * INR (nrepeats tl) * INR (length t) = INR (sum_list Nsp) * Fs
  end.
Proof.
  intros Hn Hfft Hgrid Hrun Fs.
  pose proof Hfft as Hinv.
  apply mtfftpt_Ok_inv in Hinv as (t' & findx & tapers & Ht' & Hft).
  rewrite Hgrid in Ht'. injection Ht' as <-.
  assert (Ht : 0 < INR (length t)).
  { apply _mtfftpt_Ok_inv in Hft
      as (H0 & H & interpolator & outs & _ & _ & _ & _ & Houts & _).
    unfold nrepeats in Hn. destruct (events tl) as [|evs evss] eqn:Hevs; [simpl in Hn; lia|].
    simpl in Houts. apply bind_Ok in Houts as (o & Ho & _).
    apply trial_out_Ok_inv in Ho as (tmin & _ & Hmin & _).
    destruct t; [done|]. apply lt_0_INR. simpl. lia. }
  assert (Hminmax : ∃ tmin tmax, amin t = Ok tmin ∧ amax t = Ok tmax).
  { destruct t as [|x t0]; [simpl in Ht; lra|]. by eexists _, _. }
  destruct Hminmax as (tmin & tmax & Hmin & Hmax).
  destruct (_mtfftpt_Ok_counts _ _ _ _ _ _ _ _ _ _ _ Hft Hmin Hmax) as [HN HM].
  unfold mtspectrumpt in Hrun. rewrite Hfft in Hrun. simpl in Hrun.
  destruct (default false (kw_trialave kw)); injection Hrun as <- <- <-.
  - assert (HMN : Msp = (λ n, INR n / INR (length t)) <$> Nsp).
    { rewrite HM, HN, <- list_fmap_compose. done. }
    unfold rmean. rewrite HMN at 1. rewrite rsum_scaled_counts.
    rewrite HM, length_fmap. fold (nrepeats tl).
    assert (0 < INR (nrepeats tl)) by by apply lt_0_INR.
    fold Fs. field. lra.
  - rewrite length_fmap. split; [by rewrite HM, length_fmap|].
    intros c r n Hr Hnc. rewrite list_lookup_fmap in Hr.
    rewrite HM, list_lookup_fmap in Hr. rewrite HN, list_lookup_fmap in Hnc.
    destruct (events tl !! c) as [evs|]; simpl in *; [|done].
    injection Hr as <-. injection Hnc as <-. fold Fs. field. lra.
Qed.

Lemma rate_is_count_over_duration_witness :
  ∃ J Msp Nsp f S rates,
    (0 < nrepeats Sample.tl)%nat ∧
    SampleCall.mtfftpt Sample.tl SampleCall.kw = Ok (J, Msp, Nsp, f) ∧
    mtfftpt_grid Sample.tl SampleCall.kw = Ok Sample.t ∧
    SampleCall.mtspectrumpt Sample.tl SampleCall.kw = Ok (S, f, RateTrials rates) ∧
    length rates = nrepeats Sample.tl ∧
    ∀ c r n, rates !! c = Some r → Nsp !! c = Some n →
             r * INR (length Sample.t) = INR n * default 1 (kw_Fs SampleCall.kw).
Proof.
  destruct (SampleCall_returns [[1; 5]; []] (1, 5))
    as (J & Msp & Nsp & f & findx & _ & Hcall).
  assert (Hn : (0 < nrepeats Sample.tl)%nat) by (unfold nrepeats; simpl; lia).
  assert (Hrun : SampleCall.mtspectrumpt Sample.tl SampleCall.kw =
                 Ok (SpecTrials (rmean_axis1 (length Msp) (conj_mul3 J J)), f,
                     RateTrials ((λ m, m * default 1 (kw_Fs SampleCall.kw)) <$> Msp))).
  { unfold SampleCall.mtspectrumpt, mtspectrumpt. unfold SampleCall.mtfftpt in Hcall.
    change (Toelis [[1; 5]; []] (1, 5)) with Sample.tl in Hcall. by rewrite Hcall. }
  eexists J, Msp, Nsp, f, _, _. split; [exact Hn|]. split; [exact Hcall|].
  split; [reflexivity|]. split; [exact Hrun|].
  exact (rate_is_count_over_duration _ _ _ Sample.tl SampleCall.kw J Msp Nsp f _ f _
           Sample.t Hn Hcall eq_refl Hrun).
Defined.

(** ** [coherencycpt]: the steps of a call *)

Lemma coherencycpt_Ok_steps
    (getfgrid : R → nat → R * R → result (list R * list nat))
    (dpsschk : nat → kwargs → result array2)
    (mtfft : array2 → kwargs → result array3) (nextpow2 : nat → Z) S tl kw r f :
  coherencycpt getfgrid dpsschk mtfft nextpow2 S tl kw = Ok (r, f) →
  let Fs := default 1 (kw_Fs kw) in
  let Nsamp := (shape2 (as_2d S)).1 in
  let nfft := nfft_of nextpow2 Nsamp (default 0%Z (kw_pad kw)) in
  ∃ S' t findx tapers J1 J2 M N,
    match_trials (as_2d S) tl = Ok S' ∧
    match kw_tgrid kw with
    | Some g => Ok g
    | None => dt ← fdiv 1 Fs; Ok (arange 0 (INR Nsamp * dt) dt)
    end = Ok t ∧
    getfgrid Fs nfft (default (0, Fs / 2) (kw_fpass kw)) = Ok (f, findx) ∧
    dpsschk Nsamp kw = Ok tapers ∧
    mtfft S' (set_tapers kw tapers) = Ok J1 ∧
    _mtfftpt tl tapers nfft t f findx = Ok (J2, M, N) ∧
    coherency_reduce (length f) (nrepeats tl) J1 J2 (default false (kw_trialave kw)) = Ok r.
Proof.
  intros Hrun Fs Nsamp nfft. unfold coherencycpt, coherencycpt_matched in Hrun.
  apply bind_Ok in Hrun as (S' & HS' & Hrun).
  apply bind_Ok in Hrun as (t & Ht & Hrun).
  apply bind_Ok in Hrun as ([f' findx] & Hfg & Hrun).
  apply bind_Ok in Hrun as (tapers & Htp & Hrun).
  apply bind_Ok in Hrun as (J1 & HJ1 & Hrun).
  apply bind_Ok in Hrun as ([[J2 M] N] & HJ2 & Hrun).
  apply bind_Ok in Hrun as ([[[[Cabs phi] S12] S1] S2] & Hred & Hrun).
  injection Hrun as <- <-.
  by exists S', t, findx, tapers, J1, J2, M, N.
Qed.





(** X7.  [coherencycpt] uses a [tgrid] of two end points as a grid of two
    points: unlike [mtfftpt] it does not expand it.  With a taper bank that
    returns one row per sample, such a call never returns unless the signal
    has exactly two samples: the interpolator rejects a grid whose length
    differs from that of the tapers. *)
Theorem coherencycpt_two_point_tgrid
    (getfgrid : R → nat → R * R → result (list R * list nat))
    (dpsschk : nat → kwargs → result array2)
    (mtfft : array2 → kwargs → result array3) (nextpow2 : nat → Z) S tl kw a b :
  kw_tgrid kw = Some [a; b] →
  (∀ N tp, dpsschk N kw = Ok tp → (shape2 tp).1 = N) →
  (shape2 (as_2d S)).1 ≠ 2%nat →
  ∀ r, coherencycpt getfgrid dpsschk mtfft nextpow2 S tl kw ≠ Ok r.
Proof.
  intros Htg Hrows HN [r f] Hrun.
  apply coherencycpt_Ok_steps in Hrun
    as (S' & t & findx & tapers & J1 & J2 & M & N & _ & Ht & _ & Htp & _ & HJ2 & _).
  rewrite Htg in Ht. injection Ht as <-.
  apply Hrows in Htp.
  apply _mtfftpt_Ok_inv in HJ2 as (H0 & H & interpolator & outs & _ & _ & _ & HI & _).
  unfold interp1d in HI. case_decide as Hlen; [|done].
  simpl in Hlen. rewrite Htp in Hlen. by rewrite <- Hlen in HN.
Qed.

Lemma coherencycpt_two_point_tgrid_witness :
  let kw := Kwargs None None None None None None (Some [0; 3]) in
  kw_tgrid kw = Some [0; 3] ∧
  (∀ N tp, Signalproc.dpsschk SampleCall.dpss N kw = Ok tp → (shape2 tp).1 = N) ∧
  (shape2 (as_2d CoherencyCall.S)).1 ≠ 2%nat ∧
  ∀ r, CoherencyCall.call CoherencyCall.S CoherencyCall.tl kw ≠ Ok r.
Proof.
  intros kw.
  assert (Hrows : ∀ N tp, Signalproc.dpsschk SampleCall.dpss N kw = Ok tp →
                          (shape2 tp).1 = N).
  { by intros N tp [= <-]. }
  assert (HN : (shape2 (as_2d CoherencyCall.S)).1 ≠ 2%nat) by (simpl; lia).
  split; [reflexivity|]. split; [exact Hrows|]. split; [exact HN|].
  exact (coherencycpt_two_point_tgrid Signalproc.getfgrid
           (Signalproc.dpsschk SampleCall.dpss) (Signalproc.mtfft SampleCall.dpss)
           Datautils.nextpow2 CoherencyCall.S CoherencyCall.tl kw 0 3
           eq_refl Hrows HN).
Defined.

(** X8.  With the default grid, or a [tgrid] of two end points, a positive
    sampling rate and [mintime <= maxtime], [mtfftpt] and [mtspectrumpt]
    return as soon as the grid builder and the taper bank hand back
    frequencies and indices of one size, indices within the transform
    length and tapers with one row per grid point: the grid is not empty,
    it fits the tapers, and no retained event falls outside the range of the
    interpolator. *)
Theorem mtspectrumpt_returns_on_built_grid
    (getfgrid : R → nat → R * R → result (list R * list nat))
    (dpsschk : nat → kwargs → result array2) (nextpow2 : nat → Z)
    tl kw mintime maxtime f findx tapers :
  let Fs := default 1 (kw_Fs kw) in
  let dt := 1 / Fs in
  let t := arange (mintime - dt) (maxtime + 2 * dt) dt in
  let nfft := nfft_of nextpow2 (length t) (default 0%Z (kw_pad kw)) in
  default [(range tl).1; (range tl).2] (kw_tgrid kw) = [mintime; maxtime] →
  0 < Fs → mintime <= maxtime →
  getfgrid Fs nfft (default (0, Fs / 2) (kw_fpass kw)) = Ok (f, findx) →
  length f = length findx → Forall (λ i, i < nfft)%nat findx →
  dpsschk (length t) kw = Ok tapers → (shape2 tapers).1 = length t →
  (∃ J Msp Nsp, mtfftpt getfgrid dpsschk nextpow2 tl kw = Ok (J, Msp, Nsp, f)) ∧
  (∃ Sp rate, mtspectrumpt getfgrid dpsschk nextpow2 tl kw = Ok (Sp, f, rate)).
Proof.
  intros Fs dt t nfft Hpair HFs Hle Hfg Hsz Hfindx Htp Hrows.
  destruct (bounds_grid_span mintime maxtime Fs HFs Hle) as (Hgrid & Hlen & Hasc & _).
  fold dt t in Hgrid, Hlen, Hasc.
  assert (Hmtgrid : mtfftpt_grid tl kw = Ok t).
  { unfold mtfftpt_grid. by rewrite Hpair. }
  destruct (mtfftpt_returns getfgrid dpsschk nextpow2 tl kw t f findx tapers)
    as (J & Msp & Nsp & _ & Hcall); try done.
  { destruct t; [simpl in Hlen; lia|done]. }
  split; [by exists J, Msp, Nsp|].
  unfold mtspectrumpt. rewrite Hcall. simpl.
  destruct (default false (kw_trialave kw)); by eexists _, _.
Qed.

Lemma mtspectrumpt_returns_on_built_grid_witness :
  let t := arange (1 - 1 / 1) (3 + 2 * (1 / 1)) (1 / 1) in
  let nfft := nfft_of Datautils.nextpow2 (length t) 0 in
  ∃ f findx,
    default [(range DefaultCall.tl).1; (range DefaultCall.tl).2] (kw_tgrid DefaultCall.kw)
      = [1; 3] ∧
    0 < default 1 (kw_Fs DefaultCall.kw) ∧ 1 <= 3 ∧
    Signalproc.getfgrid 1 nfft (0, 1 / 2) = Ok (f, findx) ∧
    length f = length findx ∧ Forall (λ i, i < nfft)%nat findx ∧
    Signalproc.dpsschk SampleCall.dpss (length t) DefaultCall.kw
      = Ok (SampleCall.dpss (length t) 3 5) ∧
    (shape2 (SampleCall.dpss (length t) 3 5)).1 = length t ∧
    ∃ Sp rate,
      mtspectrumpt Signalproc.getfgrid (Signalproc.dpsschk SampleCall.dpss)
        Datautils.nextpow2 DefaultCall.tl DefaultCall.kw = Ok (Sp, f, rate).
Proof.
  intros t nfft.
  assert (H01 : 0 < default 1 (kw_Fs DefaultCall.kw)) by (simpl; lra).
  assert (H13 : 1 <= 3) by lra.
  assert (Hnfft : (0 < nfft)%nat).
  { destruct (bounds_grid_span 1 3 1) as (_ & Hlen & _); [lra..|].
    pose proof (nfft_of_ge Datautils.nextpow2 (length t) 0). fold t in Hlen.
    subst nfft. lia. }
  destruct (getfgrid_consistent 1 nfft (0, 1 / 2) Hnfft) as (f & findx & Hfg & Hsz & Hfindx).
  exists f, findx.
  split; [reflexivity|]. split; [exact H01|]. split; [exact H13|]. split; [exact Hfg|].
  split; [exact Hsz|]. split; [exact Hfindx|]. split; [reflexivity|].
  split; [reflexivity|].
  exact (proj2 (mtspectrumpt_returns_on_built_grid Signalproc.getfgrid
                  (Signalproc.dpsschk SampleCall.dpss) Datautils.nextpow2
                  DefaultCall.tl DefaultCall.kw 1 3 f findx
                  (SampleCall.dpss (length t) 3 5)
                  eq_refl H01 H13 Hfg Hsz Hfindx eq_refl eq_refl)).
Defined.

(** ** Moving the events and the grid together *)


















(** ** The magnitude of the coherency *)

Lemma schwarz_zero : schwarz C0 C0 C0.
Proof. exists 0, 0. unfold Cnorm2, C0, RtoC. simpl. repeat split; try done; lra. Qed.

Lemma schwarz_mul a b : schwarz (Cmul (Cconj a) b) (Cmul (Cconj a) a) (Cmul (Cconj b) b).
Proof.
  exists (Cnorm2 a), (Cnorm2 b). destruct a as [a1 a2], b as [b1 b2].
  unfold Cmul, Cconj, RtoC, Cnorm2. simpl.
  split; [f_equal; ring|]. split; [f_equal; ring|].
  split; [nra|]. split; [nra|]. apply Req_le. ring.
Qed.

Lemma cross_bound P Q p q A B a b :
  0 <= A → 0 <= B → 0 <= a → 0 <= b →
  P * P + Q * Q <= A * B → p * p + q * q <= a * b →
  2 * (P * p + Q * q) <= A * b + B * a.
Proof.
  intros HA HB Ha Hb H1 H2.
  assert (HY : 0 <= A * b + B * a) by nra.
  assert (Hprod : (P * P + Q * Q) * (p * p + q * q) <= (A * B) * (a * b)).
  { apply Rmult_le_compat; nra. }
  assert (Hsq : (2 * (P * p + Q * q)) * (2 * (P * p + Q * q))
                <= (A * b + B * a) * (A * b + B * a)).
  { pose proof (Rle_0_sqr (P * q - Q * p)) as Hc1.
    pose proof (Rle_0_sqr (A * b - B * a)) as Hc2.
    unfold Rsqr in Hc1, Hc2. lra. }
  destruct (Rle_dec (2 * (P * p + Q * q)) (A * b + B * a)) as [|Hn]; [done|].
  apply Rnot_le_lt in Hn.
  assert (0 < (2 * (P * p + Q * q) - (A * b + B * a))
              * (2 * (P * p + Q * q) + (A * b + B * a)))
    by (apply Rmult_lt_0_compat; lra).
  lra.
Qed.

Lemma schwarz_add a b c a' b' c' :
  schwarz a b c → schwarz a' b' c' → schwarz (Cadd a a') (Cadd b b') (Cadd c c').
Proof.
  intros (p1 & p2 & -> & -> & Hp1 & Hp2 & Hle) (q1 & q2 & -> & -> & Hq1 & Hq2 & Hle').
  exists (p1 + q1), (p2 + q2). destruct a as [P Q], a' as [p q].
  unfold Cadd, RtoC, Cnorm2 in *. simpl in *.
  split; [f_equal; ring|]. split; [f_equal; ring|].
  split; [lra|]. split; [lra|].
  pose proof (cross_bound P Q p q p1 p2 q1 q2 Hp1 Hp2 Hq1 Hq2 Hle Hle'). nra.
Qed.

Lemma schwarz_csum l12 l1 l2 :
  Forall3 schwarz l12 l1 l2 → schwarz (csum l12) (csum l1) (csum l2).
Proof.
  induction 1 as [|a b c l12 l1 l2 Habc _ IH]; simpl; [apply schwarz_zero|].
  by apply schwarz_add.
Qed.

Lemma schwarz_cmean l12 l1 l2 :
  Forall3 schwarz l12 l1 l2 → schwarz (cmean l12) (cmean l1) (cmean l2).
Proof.
  intros HF. pose proof (Forall3_length_lm _ _ _ _ HF) as Hlm.
  pose proof (Forall3_length_lr _ _ _ _ HF) as Hlr.
  destruct (schwarz_csum _ _ _ HF) as (p1 & p2 & Hs1 & Hs2 & Hp1 & Hp2 & Hle).
  unfold cmean. rewrite <- Hlm, <- Hlr, Hs1, Hs2. simpl.
  set (n := INR (length l12)).
  destruct (decide (length l12 = 0)%nat) as [Hz|Hnz].
  - exists 0, 0. apply length_zero_iff_nil in Hz. subst l12. inversion HF; subst.
    simpl in *. unfold RtoC, C0, Cnorm2 in *. simpl.
    assert (Hp : p1 = 0 ∧ p2 = 0) by (split; congruence). destruct Hp as [-> ->].
    unfold Rdiv. rewrite !Rmult_0_l. repeat split; try done; lra.
  - assert (Hn : 0 < n) by (apply lt_0_INR; lia).
    exists (p1 / n), (p2 / n). unfold RtoC, Cnorm2. simpl.
    split; [f_equal; unfold Rdiv; ring|]. split; [f_equal; unfold Rdiv; ring|].
    assert (Hinv : 0 < / n) by by apply Rinv_0_lt_compat.
    split; [unfold Rdiv; nra|]. split; [unfold Rdiv; nra|].
    unfold Cnorm2 in Hle. unfold Rdiv.
    replace ((csum l12).1 * / n * ((csum l12).1 * / n)
             + (csum l12).2 * / n * ((csum l12).2 * / n))
      with (((csum l12).1 * (csum l12).1 + (csum l12).2 * (csum l12).2) * (/ n * / n))
      by ring.
    replace (p1 * / n * (p2 * / n)) with (p1 * p2 * (/ n * / n)) by ring.
    apply Rmult_le_compat_r; [nra|done].
Qed.



Lemma col_zip_with (g : C → C → C) (X Y : list (list C)) c n :
  Forall (λ r, length r = n) X → Forall (λ r, length r = n) Y → (c < n)%nat →
  (λ r : list C, default C0 (r !! c)) <$> zip_with (zip_with g) X Y =
  zip_with g ((λ r : list C, default C0 (r !! c)) <$> X)
             ((λ r : list C, default C0 (r !! c)) <$> Y).
Proof.
  intros HX HY Hc. revert Y HY.
  induction HX as [|r X Hr _ IH]; intros Y HY; [done|].
  destruct HY as [|r' Y Hr' HY]; [done|]. csimpl. f_equal; [|by apply IH].
  rewrite lookup_zip_with.
  destruct (lookup_lt_is_Some_2 r c) as [x ->]; [lia|].
  by destruct (lookup_lt_is_Some_2 r' c) as [y ->]; [lia|].
Qed.

Lemma schwarz_zip (a b : list C) :
  length a = length b →
  Forall3 schwarz (zip_with (λ x y, Cmul (Cconj x) y) a b)
                  (zip_with (λ x y, Cmul (Cconj x) y) a a)
                  (zip_with (λ x y, Cmul (Cconj x) y) b b).
Proof.
  revert b. induction a as [|x a IH]; intros [|y b] Hlen; simplify_eq/=; constructor.
  - apply schwarz_mul.
  - by apply IH.
Qed.

Lemma Forall3_fmap_seq {A B D} (P : A → B → D → Prop) a b d j n :
  (∀ c, (j ≤ c < j + n)%nat → P (a c) (b c) (d c)) →
  Forall3 P (a <$> seq j n) (b <$> seq j n) (d <$> seq j n).
Proof.
  revert j. induction n as [|n IH]; intros j HP; csimpl; constructor.
  - apply HP. lia.
  - apply IH. intros c Hc. apply HP. lia.
Qed.

Lemma schwarz_axis1 n0 K n2 (J1 J2 : array3) :
  has_shape3 J1 n0 K n2 → has_shape3 J2 n0 K n2 →
  Forall3 (Forall3 schwarz) (cmean_axis1 n2 (conj_mul3 J1 J2))
                            (cmean_axis1 n2 (conj_mul3 J1 J1))
                            (cmean_axis1 n2 (conj_mul3 J2 J2)).
Proof.
  intros [Hl1 HJ1] [Hl2 HJ2]. rewrite <- Hl2 in Hl1. clear Hl2.
  unfold cmean_axis1, conj_mul3. revert J2 HJ2 Hl1.
  induction HJ1 as [|X J1 [HXl HX] _ IH]; intros J2 HJ2 Hlen.
  { destruct J2; [constructor|done]. }
  destruct HJ2 as [|Y J2 [HYl HY] HJ2]; [done|]. csimpl. constructor.
  - apply Forall3_fmap_seq. intros c Hc.
    rewrite !(col_zip_with _ _ _ c n2) by (done || lia).
    apply schwarz_cmean, schwarz_zip. rewrite !length_fmap. lia.
  - apply IH; [done|]. simpl in Hlen. lia.
Qed.

Lemma schwarz_rows_mean (M12 M1 M2 : list (list C)) :
  Forall3 (Forall3 schwarz) M12 M1 M2 →
  Forall3 schwarz (cmean <$> M12) (cmean <$> M1) (cmean <$> M2).
Proof.
  induction 1; csimpl; constructor; [by apply schwarz_cmean|done].
Qed.

Lemma schwarz_cat2 (M12 M1 M2 : list (list C)) i j :
  Forall3 (Forall3 schwarz) M12 M1 M2 →
  schwarz (cat2 M12 i j) (cat2 M1 i j) (cat2 M2 i j).
Proof.
  unfold cat2. intros HF. revert i.
  induction HF as [|r12 r1 r2 M12 M1 M2 Hr _ IH]; intros i.
  { rewrite !lookup_nil. apply schwarz_zero. }
  destruct i as [|i]; [|apply IH]. simpl. clear IH. revert j.
  induction Hr as [|x y z r12 r1 r2 Hxyz _ IH]; intros j.
  { rewrite !lookup_nil. apply schwarz_zero. }
  destruct j as [|j]; [done|apply IH].
Qed.





(** ** The order of the events of a trial *)

Lemma csum_Permutation (l l' : list C) : l ≡ₚ l' → csum l = csum l'.
Proof.
  induction 1 as [|x l l' _ IH|x y l|l l' l'' _ IH1 _ IH2]; simpl.
  - done.
  - by rewrite IH.
  - destruct x, y, (csum l). unfold Cadd. simpl. f_equal; ring.
  - congruence.
Qed.

Lemma zip_with_fmap_same {A B D E} (g : B → D → E) (a : A → B) (b : A → D) (l : list A) :
  zip_with g (a <$> l) (b <$> l) = (λ x, g (a x) (b x)) <$> l.
Proof. induction l as [|x l IH]; csimpl; [done|]. by rewrite IH. Qed.

Lemma gemm_phase_Permutation w ev ev' t0 x (y : list (list R)) :
  ev ≡ₚ ev' →
  gemm_trans_b (phase_matrix w ev t0) ((λ yk, lerp x yk <$> ev) <$> y) =
  gemm_trans_b (phase_matrix w ev' t0) ((λ yk, lerp x yk <$> ev') <$> y).
Proof.
  intros Hp. unfold gemm_trans_b, phase_matrix, outer.
  rewrite <- !list_fmap_compose. apply list_fmap_ext. intros _ wf _. simpl.
  rewrite <- !list_fmap_compose. apply list_fmap_ext. intros _ yk _. simpl.
  rewrite !zip_with_fmap_same.
  apply csum_Permutation. by apply fmap_Permutation.
Qed.

Lemma trial_body_Permutation H w I t st evs evs' :
  evs ≡ₚ evs' → trial_body H w I t st evs = trial_body H w I t st evs'.
Proof.
  intros Hp. unfold trial_body.
  destruct (amin t) as [tmin|]; [|done]. destruct (amax t) as [tmax|]; [|done].
  cbn [mbind result_bind].
  assert (Hev : in_range tmin tmax evs ≡ₚ in_range tmin tmax evs').
  { unfold in_range. by rewrite Hp. }
  set (ev := in_range tmin tmax evs) in *. set (ev' := in_range tmin tmax evs') in *.
  rewrite <- (Permutation_length Hev).
  case_decide as Hpos; [|done].
  unfold interp1d_call.
  assert (Hiff : Forall (in_bounds (ix I)) ev ↔ Forall (in_bounds (ix I)) ev')
    by by rewrite Hev.
  rewrite (decide_ext _ _ _ _ Hiff). case_decide as Hin; [|done].
  cbn [mbind result_bind]. destruct (first t) as [t0|]; [|done].
  cbn [mbind result_bind]. by rewrite (gemm_phase_Permutation _ _ _ _ _ _ Hev).
Qed.

Lemma for_each_trial_body_Permutation H w I t st evss evss' :
  Forall2 (≡ₚ) evss evss' →
  for_each (trial_body H w I t) st evss = for_each (trial_body H w I t) st evss'.
Proof.
  intros HF. revert st.
  induction HF as [|evs evs' evss evss' Hp _ IH]; intros st; [done|].
  simpl. rewrite (trial_body_Permutation _ _ _ _ _ _ _ Hp).
  destruct (trial_body _ _ _ _ st evs'); [apply IH|done].
Qed.

(** X11.  The outputs of [_mtfftpt] do not depend on the order of the events
    within a trial: two collections whose trials hold the same events, in
    any order, give the same [J], [Msp] and [Nsp], and the same error when
    there is one.  (Exact for the numbers modelled here; in floating point
    the order of a sum changes its rounding.) *)
Theorem event_order_irrelevant tl tl' tapers nfft t f findx :
  Forall2 (≡ₚ) (events tl) (events tl') →
  _mtfftpt tl tapers nfft t f findx = _mtfftpt tl' tapers nfft t f findx.
Proof.
  intros HF. unfold _mtfftpt. rewrite <- (Forall2_length _ _ _ HF).
  destruct (shape2 tapers) as [N K]. case_decide as Hsz; [|done].
  destruct (fft_axis0 tapers nfft) as [H0|]; [|done]. cbn [mbind result_bind].
  destruct (take_rows H0 findx) as [H|]; [|done]. cbn [mbind result_bind].
  destruct (interp1d t (K, N) (transpose tapers)) as [I|]; [|done].
  cbn [mbind result_bind]. by rewrite (for_each_trial_body_Permutation _ _ _ _ _ _ _ HF).
Qed.

Lemma event_order_irrelevant_witness :
  Forall2 (≡ₚ) (events Sample.tl) (events (Toelis [[5; 1]; []] (1, 5))) ∧
  _mtfftpt Sample.tl Sample.tapers Sample.nfft Sample.t Sample.f Sample.findx =
  _mtfftpt (Toelis [[5; 1]; []] (1, 5)) Sample.tapers Sample.nfft Sample.t Sample.f
    Sample.findx.
Proof.
  assert (HF : Forall2 (≡ₚ) (events Sample.tl) (events (Toelis [[5; 1]; []] (1, 5)))).
  { repeat constructor. }
  split; [exact HF|].
  exact (event_order_irrelevant Sample.tl (Toelis [[5; 1]; []] (1, 5)) Sample.tapers
           Sample.nfft Sample.t Sample.f Sample.findx HF).
Defined.

(** ** The default grid of [coherencycpt] *)





(** ** The auto-spectra of [coherencycpt] *)

Lemma schwarz_real s12 s1 s2 :
  schwarz s12 s1 s2 → (Cim s1 = 0 ∧ 0 <= Cre s1) ∧ (Cim s2 = 0 ∧ 0 <= Cre s2).
Proof. by intros (p1 & p2 & -> & -> & Hp1 & Hp2 & _). Qed.

Lemma schwarz_real_list (l12 l1 l2 : list C) :
  Forall3 schwarz l12 l1 l2 →
  Forall (λ z, Cim z = 0 ∧ 0 <= Cre z) l1 ∧ Forall (λ z, Cim z = 0 ∧ 0 <= Cre z) l2.
Proof.
  induction 1 as [|x y z l12 l1 l2 Hxyz _ [IH1 IH2]]; [by split|].
  destruct (schwarz_real _ _ _ Hxyz). split; by constructor.
Qed.

Lemma schwarz_real_matrix (M12 M1 M2 : list (list C)) :
  Forall3 (Forall3 schwarz) M12 M1 M2 →
  Forall (λ z, Cim z = 0 ∧ 0 <= Cre z) (mjoin M1) ∧
  Forall (λ z, Cim z = 0 ∧ 0 <= Cre z) (mjoin M2).
Proof.
  induction 1 as [|r12 r1 r2 M12 M1 M2 Hr _ [IH1 IH2]]; [by split|].
  destruct (schwarz_real_list _ _ _ Hr). simpl. split; by apply Forall_app.
Qed.

(** X13.  The auto-spectra [S1] and [S2] that [coherencycpt] returns as
    complex arrays are real and not negative in every entry, with or
    without [trialave], for transforms [J1] and [J2] of one shape with at
    least one taper and one trial (the mean over no taper, or over no
    trial, is nan). *)
Theorem auto_spectra_real_nonneg
    nfreq K ntrials (J1 J2 : array3) trialave Cabs phi S12 S1 S2 :
  (0 < K)%nat → (0 < ntrials)%nat →
  has_shape3 J1 nfreq K ntrials → has_shape3 J2 nfreq K ntrials →
  coherency_reduce nfreq ntrials J1 J2 trialave = Ok (Cabs, phi, S12, S1, S2) →
  Forall (λ z, Cim z = 0 ∧ 0 <= Cre z) (nd_entries S1) ∧
  Forall (λ z, Cim z = 0 ∧ 0 <= Cre z) (nd_entries S2).
Proof.
  intros _ _ HJ1 HJ2 Hred.
  pose proof (schwarz_axis1 _ _ _ _ _ HJ1 HJ2) as HF.
  destruct trialave.
  - destruct (coherency_reduce_trialave_inv _ _ _ _ _ Hred) as [Hf Hc].
    rewrite coherency_reduce_trialave in Hred by done. simplify_eq/=.
    by apply (schwarz_real_list _ _ _ (schwarz_rows_mean _ _ _ HF)).
  - unfold coherency_reduce, squeeze in Hred.
    set (M12 := cmean_axis1 ntrials (conj_mul3 J1 J2)) in *.
    set (M1 := cmean_axis1 ntrials (conj_mul3 J1 J1)) in *.
    set (M2 := cmean_axis1 ntrials (conj_mul3 J2 J2)) in *.
    destruct (decide (nfreq = 1)%nat), (decide (ntrials = 1)%nat); simplify_eq/=.
    + destruct (schwarz_real _ _ _ (schwarz_cat2 _ _ _ 0 0 HF)).
      split; (constructor; [done|constructor]).
    + destruct HF as [|r12 r1 r2 M12' M1' M2' Hr _]; simpl; [by split|].
      by apply (schwarz_real_list _ _ _ Hr).
    + apply (schwarz_real_list ((λ i, cat2 M12 i 0) <$> seq 0 nfreq)).
      apply Forall3_fmap_seq. intros i _. by apply schwarz_cat2.
    + by apply (schwarz_real_matrix M12).
Qed.

Lemma auto_spectra_real_nonneg_witness :
  ∃ Cabs phi S12 S1 S2,
    coherency_reduce 2 2 CoherencySample.J1 CoherencySample.J2 true
      = Ok (Cabs, phi, S12, S1, S2) ∧
    Forall (λ z, Cim z = 0 ∧ 0 <= Cre z) (nd_entries S1) ∧
    Forall (λ z, Cim z = 0 ∧ 0 <= Cre z) (nd_entries S2).
Proof.
  assert (Hsh1 : has_shape3 CoherencySample.J1 2 1 2).
  { split; [done|]. repeat constructor. }
  assert (Hsh2 : has_shape3 CoherencySample.J2 2 1 2).
  { split; [done|]. repeat constructor. }
  eexists _, _, _, _, _. split; [reflexivity|].
  exact (auto_spectra_real_nonneg 2 1 2 CoherencySample.J1 CoherencySample.J2 true
           _ _ _ _ _ (Nat.lt_0_succ 0) (Nat.lt_0_succ 1) Hsh1 Hsh2 eq_refl).
Defined.
